(** * daily_readings_bot: the occasion-resolution engine of [bot.py]

    A shallow embedding of [_norm], [_search_commemorations],
    [build_occasion] and [format_markdown], together with the part of
    Python's [re] and [str] they rely on, and the properties of the
    specification stated over it. *)

From Stdlib Require Import Ascii String NArith ZArith Lia DecimalString.
From stdpp Require Import gmap list.

Local Open Scope N_scope.

(** ** Characters

    A Python [str] is a sequence of Unicode code points.  The model keeps
    the code points U+0000..U+00FF (ASCII and the Latin-1 supplement, in
    which both sources write their references and names), and two more:
    U+0130, the only code point whose [str.lower()] is longer than one
    character, and U+0307, the combining mark that lower-casing produces. *)

Inductive char : Type :=
  | L1 (a : ascii)      (* U+0000 .. U+00FF *)
  | CapIDot             (* U+0130 LATIN CAPITAL LETTER I WITH DOT ABOVE *)
  | CombDot.            (* U+0307 COMBINING DOT ABOVE *)

Definition code (c : char) : N :=
  match c with
  | L1 a => N_of_ascii a
  | CapIDot => 304
  | CombDot => 775
  end.

Definition of_code (n : N) : char :=
  if n =? 304 then CapIDot else if n =? 775 then CombDot else L1 (ascii_of_N n).

Lemma of_code_code c : of_code (code c) = c.
Proof.
  destruct c as [a| |]; try reflexivity.
  unfold of_code, code.
  pose proof (N_ascii_bounded a) as Hb.
  destruct (N.eqb_spec (N_of_ascii a) 304) as [E|_]; [lia|].
  destruct (N.eqb_spec (N_of_ascii a) 775) as [E|_]; [lia|].
  now rewrite ascii_N_embedding.
Qed.

#[global] Instance char_eq_dec : EqDecision char.
Proof. solve_decision. Defined.

#[global] Instance char_countable : Countable char :=
  inj_countable' code of_code of_code_code.

Definition char_eqb (x y : char) : bool := code x =? code y.

Lemma char_eqb_eq x y : char_eqb x y = true <-> x = y.
Proof.
  unfold char_eqb. rewrite N.eqb_eq. split; [|now intros ->].
  intros E. rewrite <- (of_code_code x), <- (of_code_code y). now rewrite E.
Qed.

Lemma char_eqb_refl x : char_eqb x x = true.
Proof. now apply char_eqb_eq. Qed.

(** A Python string. *)
Abbreviation pystr := (list char).

(** [py "text"] is the Python literal ["text"] (ASCII only). *)
Definition py (s : string) : pystr := map L1 (list_ascii_of_string s).

Definition in_range (lo hi n : N) : bool := (lo <=? n) && (n <=? hi).

(** [str.isalnum()] on U+0000..U+00FF: the digits, the letters, the
    ordinal indicators, the micro sign, the superscript digits and the
    vulgar fractions. *)
Definition latin1_alnum (n : N) : bool :=
  in_range 48 57 n || in_range 65 90 n || in_range 97 122 n
  || (n =? 170) || (n =? 178) || (n =? 179) || (n =? 181)
  || (n =? 185) || (n =? 186) || in_range 188 190 n
  || in_range 192 214 n || in_range 216 246 n || in_range 248 255 n.

(** [\w]: alphanumeric or underscore. *)
Definition is_word (c : char) : bool :=
  match c with
  | L1 a => latin1_alnum (N_of_ascii a) || (N_of_ascii a =? 95)
  | CapIDot => true
  | CombDot => false
  end.

(** [\d]: a decimal digit. *)
Definition is_digit (c : char) : bool :=
  match c with
  | L1 a => in_range 48 57 (N_of_ascii a)
  | _ => false
  end.

(** [\s], and the characters [str.strip()] removes. *)
Definition is_space (c : char) : bool :=
  match c with
  | L1 a =>
      let n := N_of_ascii a in
      in_range 9 13 n || in_range 28 32 n || (n =? 133) || (n =? 160)
  | _ => false
  end.

Definition is_newline (c : char) : bool := code c =? 10.

(** The simple lower-case mapping: what [re.IGNORECASE] compares, and
    what [str.lower()] does to every character but U+0130. *)
Definition to_lower (c : char) : char :=
  match c with
  | L1 a =>
      let n := N_of_ascii a in
      if in_range 65 90 n || in_range 192 214 n || in_range 216 222 n
      then L1 (ascii_of_N (n + 32)) else c
  | CapIDot => L1 "i"
  | CombDot => CombDot
  end.

(** [str.lower()], character by character. *)
Definition lower_char (c : char) : pystr :=
  match c with
  | CapIDot => [L1 "i"; CombDot]
  | _ => [to_lower c]
  end.

Definition lower (s : pystr) : pystr := flat_map lower_char s.

(** [str.strip()] *)
Fixpoint lstrip (s : pystr) : pystr :=
  match s with
  | c :: t => if is_space c then lstrip t else s
  | [] => []
  end.

Definition rstrip (s : pystr) : pystr := rev (lstrip (rev s)).

Definition strip (s : pystr) : pystr := rstrip (lstrip s).

(** [str.startswith] *)
Fixpoint startswith (s p : pystr) : bool :=
  match p, s with
  | [], _ => true
  | c :: p', d :: s' => char_eqb c d && startswith s' p'
  | _ :: _, [] => false
  end.

(** Truth value of a string: [if s:]. *)
Definition truthy (s : pystr) : bool :=
  match s with [] => false | _ :: _ => true end.

(** ** Regular expressions

    The fragment of [re] the program uses.  Repetition is only ever
    applied to a character class. *)

Inductive cset : Type :=
  | CDigit                  (* \d *)
  | CWord                   (* \w *)
  | CSpace                  (* \s *)
  | CAny                    (* .  *)
  | CChar (c : char)        (* a character inside a bracket set *)
  | CNot (s : cset)         (* [^...] *)
  | COr (s t : cset).

Fixpoint cset_mem (s : cset) (c : char) : bool :=
  match s with
  | CDigit => is_digit c
  | CWord => is_word c
  | CSpace => is_space c
  | CAny => negb (is_newline c)
  | CChar d => char_eqb c d
  | CNot s' => negb (cset_mem s' c)
  | COr s1 s2 => cset_mem s1 c || cset_mem s2 c
  end.

Inductive regex : Type :=
  | Empty
  | Lit (c : char)              (* a literal character *)
  | Cls (s : cset)              (* one character of a class *)
  | Cat (r1 r2 : regex)
  | Alt (r1 r2 : regex)         (* r1|r2, r1 tried first *)
  | Star (s : cset)             (* greedy X* *)
  | Bol                         (* ^ *)
  | Wordb                       (* \b *)
  | Group (n : nat) (r : regex). (* the n-th capturing group *)

Definition Plus (s : cset) : regex := Cat (Cls s) (Star s).   (* X+ *)
Definition Opt (r : regex) : regex := Alt r Empty.            (* r? *)

(** A literal piece of pattern text. *)
Fixpoint Str (s : pystr) : regex :=
  match s with
  | [] => Empty
  | c :: t => Cat (Lit c) (Str t)
  end.

Fixpoint Seq (rs : list regex) : regex :=
  match rs with
  | [] => Empty
  | r :: t => Cat r (Seq t)
  end.

(** Word-ness of the character on one side of a position; the ends of
    the string count as non-word. *)
Definition word_side (c : option char) : bool :=
  match c with Some x => is_word x | None => false end.

Section Engine.
(** [re.IGNORECASE] *)
Variable icase : bool.

Definition lit_eq (c x : char) : bool :=
  if icase then char_eqb (to_lower x) (to_lower c) else char_eqb x c.

Context {A : Type}.

(** A continuation receives the groups captured so far, the character
    before the current position and the rest of the subject. *)
Definition cont : Type := gmap nat pystr -> option char -> pystr -> option A.

Fixpoint star (s : cset) (k : cont) (g : gmap nat pystr)
    (prev : option char) (inp : pystr) : option A :=
  match inp with
  | c :: rest =>
      if cset_mem s c then
        match star s k g (Some c) rest with
        | Some r => Some r
        | None => k g prev inp
        end
      else k g prev inp
  | [] => k g prev inp
  end.

(** The backtracking matcher, alternatives in priority order. *)
Fixpoint run (r : regex) (k : cont) (g : gmap nat pystr)
    (prev : option char) (inp : pystr) : option A :=
  match r with
  | Empty => k g prev inp
  | Lit c =>
      match inp with
      | x :: rest => if lit_eq c x then k g (Some x) rest else None
      | [] => None
      end
  | Cls s =>
      match inp with
      | x :: rest => if cset_mem s x then k g (Some x) rest else None
      | [] => None
      end
  | Cat r1 r2 => run r1 (run r2 k) g prev inp
  | Alt r1 r2 =>
      match run r1 k g prev inp with
      | Some v => Some v
      | None => run r2 k g prev inp
      end
  | Star s => star s k g prev inp
  | Bol => match prev with None => k g prev inp | Some _ => None end
  | Wordb =>
      if xorb (word_side prev) (word_side (head inp)) then k g prev inp
      else None
  | Group n r' =>
      run r'
        (fun g' prev' inp' =>
           k (<[n := take (length inp - length inp') inp]> g') prev' inp')
        g prev inp
  end.
End Engine.

(** A match: the captured groups and what follows the matched text. *)
Record rmatch : Type := { groups : gmap nat pystr; after : pystr }.

Definition accept : @cont rmatch :=
  fun g _ rest => Some {| groups := g; after := rest |}.

Definition accept_at_end : @cont rmatch :=
  fun g _ rest =>
    match rest with
    | [] => Some {| groups := g; after := [] |}
    | _ :: _ => None
    end.

(** [re.match]; [prev] is the character before the position tried. *)
Definition match_at (icase : bool) (r : regex) (prev : option char)
    (s : pystr) : option rmatch :=
  run icase r accept ∅ prev s.

Definition re_match (icase : bool) (r : regex) (s : pystr) : option rmatch :=
  match_at icase r None s.

(** [re.fullmatch] *)
Definition re_fullmatch (icase : bool) (r : regex) (s : pystr) : option rmatch :=
  run icase r accept_at_end ∅ None s.

(** [re.search]: the leftmost position at which the pattern matches. *)
Fixpoint search_from (icase : bool) (r : regex) (prev : option char)
    (s : pystr) : option rmatch :=
  match match_at icase r prev s with
  | Some m => Some m
  | None =>
      match s with
      | c :: t => search_from icase r (Some c) t
      | [] => None
      end
  end.

Definition re_search (icase : bool) (r : regex) (s : pystr) : option rmatch :=
  search_from icase r None s.

(** [re.sub] with a plain replacement text: every non-overlapping match,
    left to right, is replaced.  [skip] counts the characters of the
    subject that the last match still covers. *)
Fixpoint sub_from (icase : bool) (r : regex) (repl : pystr) (skip : nat)
    (prev : option char) (s : pystr) : pystr :=
  match skip with
  | S n =>
      match s with
      | c :: t => sub_from icase r repl n (Some c) t
      | [] => []
      end
  | O =>
      match match_at icase r prev s with
      | Some m =>
          repl ++
          match s with
          | c :: t =>
              match (length s - length (after m))%nat with
              | O => c :: sub_from icase r repl O (Some c) t
              | S n => sub_from icase r repl n (Some c) t
              end
          | [] => []
          end
      | None =>
          match s with
          | c :: t => c :: sub_from icase r repl O (Some c) t
          | [] => []
          end
      end
  end.

Definition re_sub (icase : bool) (r : regex) (repl s : pystr) : pystr :=
  sub_from icase r repl O None s.

(** ** ReferenceNormalizer: [_norm] *)

(** [r"^Composite \d+\s*-\s*"] *)
Definition composite_prefix : regex :=
  Seq [Bol; Str (py "Composite "); Plus CDigit; Star CSpace; Lit (L1 "-");
       Star CSpace].

(** [r"[^\w-]"] *)
Definition not_word_or_hyphen : regex := Cls (CNot (COr CWord (CChar (L1 "-")))).

Definition _norm (ref : pystr) : pystr :=
  let ref := re_sub true composite_prefix [] ref in
  lower (re_sub false not_word_or_hyphen [] ref).

(** Python values that can reach a [ref] parameter, and the outcome of a
    call. *)
Inductive pyval : Type :=
  | PyNone
  | PyStr (s : pystr).

Inductive exn : Type :=
  | TypeError.

(** Truth value of such a value: [None] and [""] are false. *)
Definition truthy_val (v : pyval) : bool :=
  match v with
  | PyNone => false
  | PyStr s => truthy s
  end.

(** [re.sub] called on an arbitrary subject: one that is not a string is
    rejected with [TypeError]. *)
Definition re_sub_call (icase : bool) (r : regex) (repl : pystr) (s : pyval)
    : exn + pystr :=
  match s with
  | PyStr s => inr (re_sub icase r repl s)
  | PyNone => inl TypeError
  end.

(** [_norm] called on an arbitrary value: the argument goes to the first
    [re.sub] as it is. *)
Definition _norm_call (ref : pyval) : exn + pystr :=
  match re_sub_call true composite_prefix [] ref with
  | inl e => inl e
  | inr ref =>
      match re_sub_call false not_word_or_hyphen [] (PyStr ref) with
      | inl e => inl e
      | inr s => inr (lower s)
      end
  end.

(** ** CommemorationMatcher: [_search_commemorations] *)

Definition matched (m : option rmatch) : bool :=
  match m with Some _ => true | None => false end.

(** [r"\b" + re.escape(key) + r"\b"]: the escaped key is the key taken
    as literal text. *)
Definition whole_word (key : pystr) : regex := Seq [Wordb; Str key; Wordb].

Definition _search_commemorations (key : pystr) (commemorations : list pystr)
    : option pystr :=
  if negb (truthy key) || negb (bool_decide (commemorations ≠ [])) then None
  else
    let pattern := whole_word key in
    find (fun entry => matched (re_search true pattern entry)) commemorations.

(** ** OccasionResolver: [build_occasion] *)

(** [r"\d+\w*\s+reading"] *)
Definition positional_label : regex :=
  Seq [Plus CDigit; Star CWord; Plus CSpace; Str (py "reading")].

(** [r"^(St\.?|Ven\.?|Holy|The)\s+"] *)
Definition title_prefix : regex :=
  Seq [Bol;
       Group 1 (Alt (Cat (Str (py "St")) (Opt (Lit (L1 "."))))
               (Alt (Cat (Str (py "Ven")) (Opt (Lit (L1 "."))))
               (Alt (Str (py "Holy")) (Str (py "The")))));
       Plus CSpace].

(** [r"^The\s+"] *)
Definition leading_The : regex := Seq [Bol; Str (py "The"); Plus CSpace].

(** [r"^Saint\b"] *)
Definition leading_Saint : regex := Seq [Bol; Str (py "Saint"); Wordb].

(** [r"(\w+) of the (\d+\w+) week after (.+)"] *)
Definition day_title_pattern : regex :=
  Seq [Group 1 (Plus CWord); Str (py " of the ");
       Group 2 (Cat (Plus CDigit) (Plus CWord)); Str (py " week after ");
       Group 3 (Plus CAny)].

(** [m.group(n)] *)
Definition group (m : rmatch) (n : nat) : pystr := default [] (groups m !! n).

(** [re.match(r"\d", s)] *)
Definition starts_with_digit (s : pystr) : bool :=
  matched (re_match false (Cls CDigit) s).

(** The lines that follow [if match:], written twice in the source
    (after the abbreviation lookup and after the orthocal lookup) with the
    same text. *)
Definition article (m : pystr) : pystr :=
  let m := re_sub false leading_The (py "the ") m in
  if negb (startswith m (py "the "))
     && negb (matched (re_match true leading_Saint m))
  then py "the " ++ m
  else m.

(** A record of the orthocal reading list: a JSON object, of which the
    program reads string fields only. *)
Abbreviation json_object := (gmap pystr pystr).

Definition build_occasion (occasion_abbrev oca_ref : pystr)
    (commemorations : list pystr) (orthocal_index : gmap pystr json_object)
    (day_titles : list pystr) : pystr :=
  let occasion_abbrev :=
    if truthy occasion_abbrev
    then strip (re_sub false (Plus CSpace) (py " ") occasion_abbrev)
    else occasion_abbrev in
  let occasion_abbrev :=
    if truthy occasion_abbrev
       && matched (re_fullmatch true positional_label occasion_abbrev)
    then [] else occasion_abbrev in
  if truthy occasion_abbrev && starts_with_digit occasion_abbrev then
    py "the " ++ occasion_abbrev
  else if truthy occasion_abbrev
          && negb (bool_decide (lower occasion_abbrev
                                  ∈ [py "saint"; py "the"; py ""])) then
    let key := strip (re_sub true title_prefix [] occasion_abbrev) in
    match _search_commemorations key commemorations with
    | Some m => if truthy m then article m else occasion_abbrev
    | None => occasion_abbrev
    end
  else
    let orthocal_desc : option pystr :=
      if truthy oca_ref then
        match orthocal_index !! _norm oca_ref with
        | Some entry =>
            if bool_decide (entry ≠ ∅)
            then Some (strip (default [] (entry !! py "description")))
            else None
        | None => None
        end
      else None in
    if truthy (default [] orthocal_desc) then
      let orthocal_desc := default [] orthocal_desc in
      if starts_with_digit orthocal_desc then py "the " ++ orthocal_desc
      else
        let key := strip (re_sub true title_prefix [] orthocal_desc) in
        match _search_commemorations key commemorations with
        | Some m => if truthy m then article m else orthocal_desc
        | None => orthocal_desc
        end
    else
      match day_titles with
      | title :: _ =>
          match re_match true day_title_pattern title with
          | Some m =>
              let weekday := group m 1 in
              let ordinal := group m 2 in
              let feast := group m 3 in
              py "the " ++ ordinal ++ py " " ++ weekday ++ py " after " ++ feast
          | None =>
              if starts_with_digit title then py "the " ++ title else title
          end
      | [] => py ""
      end.

(** The guarded lookup of [build_occasion],
    [if oca_ref: entry = orthocal_index.get(_norm(oca_ref))], for a
    reference that may be [None]; the entry is [None] when the lookup is
    not made or finds nothing. *)
Definition orthocal_entry (oca_ref : pyval)
    (orthocal_index : gmap pystr json_object) : exn + option json_object :=
  if truthy_val oca_ref then
    match _norm_call oca_ref with
    | inl e => inl e
    | inr key => inr (orthocal_index !! key)
    end
  else inr None.

(** ** ReadingLabeler and DocumentAssembler: [format_markdown] *)

Definition SUNDAY_ONLY_TYPES : list pystr := [py "Matins Gospel"].

Definition MONTHS : list pystr :=
  [py "January"; py "February"; py "March"; py "April"; py "May"; py "June";
   py "July"; py "August"; py "September"; py "October"; py "November";
   py "December"].

Definition WEEKDAYS : list pystr :=
  [py "Monday"; py "Tuesday"; py "Wednesday"; py "Thursday"; py "Friday";
   py "Saturday"; py "Sunday"].

Definition HASHTAGS : pystr :=
  py "#Christian #OrthodoxChristian #Bible #Scripture #Orthodox #Orthostr #Biblestr".

(** A [datetime.date]: [1 <= year <= 9999], [1 <= month <= 12] and a day
    of that month. *)
Record date : Type := { year : N; month : N; day : N }.

Definition is_leap (y : N) : bool :=
  (y mod 4 =? 0) && (negb (y mod 100 =? 0) || (y mod 400 =? 0)).

Definition days_before_year (y : N) : N :=
  let y := y - 1 in y * 365 + y / 4 - y / 100 + y / 400.

Definition days_in_month (y m : N) : N :=
  if m =? 2 then (if is_leap y then 29 else 28)
  else if (m =? 4) || (m =? 6) || (m =? 9) || (m =? 11) then 30 else 31.

Fixpoint days_before_month_nat (y : N) (m : nat) : N :=
  match m with
  | O => 0
  | S m' => days_before_month_nat y m' + days_in_month y (N.of_nat (S m'))
  end.

(** [date.toordinal()]: the first of January of year 1 is day 1. *)
Definition toordinal (d : date) : N :=
  days_before_year (year d)
  + days_before_month_nat (year d) (N.to_nat (month d - 1))
  + day d.

(** [date.weekday()]: Monday is 0 and Sunday is 6. *)
Definition weekday (d : date) : N := (toordinal d + 6) mod 7.

(** [str(n)] and [f"{n:02d}"] for a non-negative integer. *)
Definition dec (n : N) : pystr := py (NilZero.string_of_uint (N.to_uint n)).

Definition dec02 (n : N) : pystr :=
  if n <? 10 then py "0" ++ dec n else dec n.

(** One of the dictionaries that [main] appends to [readings]. *)
Record reading : Type := {
  r_index : N;
  r_ref : pystr;
  r_type : pystr;
  r_occasion : pystr;
  r_text : pystr
}.

(** ["\n".join(lines)] *)
Fixpoint join_lines (lines : list pystr) : pystr :=
  match lines with
  | [] => []
  | [l] => l
  | l :: rest => l ++ py (String "010" EmptyString) ++ join_lines rest
  end.

Section Markdown.
Variable today : date.
Variable commemorations : list pystr.
Variable orthocal_index : gmap pystr json_object.
Variable day_titles : list pystr.

Definition date_path : pystr :=
  dec (year today) ++ py "/" ++ dec02 (month today) ++ py "/"
  ++ dec02 (day today).

Definition is_sunday : bool := weekday today =? 6.

(** The filter of the list comprehension. *)
Definition keeps (r : reading) : bool :=
  truthy (r_type r)
  && negb (bool_decide (r_type r ∈ SUNDAY_ONLY_TYPES) && negb is_sunday).

Definition included (readings : list reading) : list reading :=
  filter (fun r => keeps r = true) readings.

Definition reading_url (r : reading) : pystr :=
  py "oca.org/readings/daily/" ++ date_path ++ py "/" ++ dec (r_index r).

Definition heading (r : reading) : pystr :=
  if bool_decide (r_type r = py "Matins Gospel") then
    py "Matins Gospel reading (" ++ r_ref r ++ py ")"
  else
    let occasion :=
      build_occasion (r_occasion r) (r_ref r) commemorations orthocal_index
        day_titles in
    if truthy occasion then
      r_type r ++ py " reading for " ++ occasion ++ py " (" ++ r_ref r
      ++ py ")"
    else r_type r ++ py " reading (" ++ r_ref r ++ py ")".

(** The lines one pass of the loop appends. *)
Definition reading_lines (r : reading) : list pystr :=
  [py "## [" ++ heading r ++ py "](" ++ reading_url r ++ py ")"; py ""]
  ++ (if truthy (r_text r) then [py "> " ++ r_text r; py ""] else []).

Definition markdown_lines (readings : list reading) : list pystr :=
  let weekday := nth (N.to_nat (weekday today)) WEEKDAYS [] in
  let month_name := nth (N.to_nat (month today - 1)) MONTHS [] in
  let oca_daily_url := py "oca.org/readings/daily/" ++ date_path in
  let title_date :=
    weekday ++ py ", " ++ dec02 (day today) ++ py " " ++ month_name
    ++ py " " ++ dec (year today) in
  [py "# [Scripture Readings for " ++ title_date ++ py " (OCA)]("
     ++ oca_daily_url ++ py ")";
   py ""]
  ++ (match included readings with
      | [] => [py "*No readings found for this date.*"; py ""]
      | inc => flat_map reading_lines inc
      end)
  ++ [HASHTAGS; py ""].

Definition format_markdown (readings : list reading) : pystr :=
  join_lines (markdown_lines readings).
End Markdown.

(** ** orthocal.info: [build_orthocal_index] *)

(** The JSON answer of orthocal.info, as far as the program reads it: the
    values under ["readings"] and ["titles"], when present. *)
Record orthocal_data : Type := {
  od_readings : option (list json_object);
  od_titles : option (list pystr)
}.

(** [r.get("display", r.get("short_display", ""))] *)
Definition display_of (r : json_object) : pystr :=
  default (default [] (r !! py "short_display")) (r !! py "display").

(** One pass of the loop of [build_orthocal_index]. *)
Definition index_step (index : gmap pystr json_object) (r : json_object)
    : gmap pystr json_object :=
  let display := display_of r in
  if truthy display then <[_norm display := r]> index else index.

(** The same pass, [if display: index[_norm(display)] = r], for a display
    value that may be [None] (a JSON null). *)
Definition index_step_call (index : gmap pystr json_object) (display : pyval)
    (r : json_object) : exn + gmap pystr json_object :=
  if truthy_val display then
    match _norm_call display with
    | inl e => inl e
    | inr key => inr (<[key := r]> index)
    end
  else inr index.

Definition build_orthocal_index (data : orthocal_data)
    : gmap pystr json_object :=
  fold_left index_step (default [] (od_readings data)) ∅.

(** ** The OCA daily page: [_clean_ligatures], [_expand_titles] *)

(** The ligatures lie outside Latin-1, so [_clean_ligatures] is modelled
    on strings given by their code points.  [str.replace(old, new)] for a
    one-character [old]: *)
Definition replace_char (old : N) (new : list N) (text : list N) : list N :=
  flat_map (fun c => if c =? old then new else [c]) text.

(** The dictionary [replacements], in its order: ae, Ae, oe, Oe
    ligatures, c with acute, c with caron. *)
Definition replacements : list (N * list N) :=
  [(230, [97; 101]); (198, [65; 101]); (339, [111; 101]); (338, [79; 101]);
   (263, [99]); (269, [99])].

Definition _clean_ligatures (text : list N) : list N :=
  fold_left (fun text '(old, new) => replace_char old new text)
    replacements text.

(** [r"\bSt\.\s+"] and [r"\bVen\.\s+"] *)
Definition abbreviated_St : regex :=
  Seq [Wordb; Str (py "St"); Lit (L1 "."); Plus CSpace].

Definition abbreviated_Ven : regex :=
  Seq [Wordb; Str (py "Ven"); Lit (L1 "."); Plus CSpace].

Definition _expand_titles (text : pystr) : pystr :=
  let text := re_sub false abbreviated_St (py "Saint ") text in
  re_sub false abbreviated_Ven (py "Venerable ") text.

(** ** Entry point: the readings [main] hands to [format_markdown] *)

(** [x or y], for [x] a string or [None]. *)
Definition or_else (x : option pystr) (y : pystr) : pystr :=
  match x with
  | Some s => if truthy s then s else y
  | None => y
  end.

(** What [get_oca_reading_page] returns:
    [(ref, reading_type, occasion_abbrev, verse_text)], each a string or
    [None]. *)
Record page : Type := {
  p_ref : option pystr;
  p_type : option pystr;
  p_occasion : option pystr;
  p_text : option pystr
}.

(** The dictionary appended to [readings] for one link. *)
Definition reading_of_page (idx : N) (link_text : pystr) (pg : page)
    : reading :=
  {| r_index := idx;
     r_ref := or_else (p_ref pg) link_text;
     r_type := or_else (p_type pg) [];
     r_occasion := or_else (p_occasion pg) [];
     r_text := or_else (p_text pg) [] |}.

(** The loop over the links; a page is [None] when fetching it raised
    [requests.RequestException], and the link is then skipped. *)
Fixpoint collect_readings (links : list (N * pystr * option page))
    : list reading :=
  match links with
  | [] => []
  | (idx, link_text, Some pg) :: rest =>
      reading_of_page idx link_text pg :: collect_readings rest
  | (_, _, None) :: rest => collect_readings rest
  end.

(** ** Notions used in the statements *)

(** [u] reads [p] when case is ignored. *)
Definition same_ignoring_case (p u : pystr) : Prop :=
  Forall2 (fun c x => to_lower x = to_lower c) p u.

(** A word boundary: exactly one of the two sides is a word character. *)
Definition boundary (l r : option char) : Prop := word_side l <> word_side r.

(** [entry] contains [key] as a whole word: an occurrence of [key], case
    ignored, with a word boundary on each side. *)
Definition contains_word (key entry : pystr) : Prop :=
  exists pre mid post,
    entry = pre ++ mid ++ post
    /\ same_ignoring_case key mid
    /\ boundary (last pre) (head (mid ++ post))
    /\ boundary (last (pre ++ mid)) (head post).

(** The abbreviation after the two preprocessing statements of
    [build_occasion]: white space collapsed and trimmed, a bare
    positional label emptied. *)
Definition cleaned (occasion_abbrev : pystr) : pystr :=
  let occasion_abbrev :=
    if truthy occasion_abbrev
    then strip (re_sub false (Plus CSpace) (py " ") occasion_abbrev)
    else occasion_abbrev in
  if truthy occasion_abbrev
     && matched (re_fullmatch true positional_label occasion_abbrev)
  then [] else occasion_abbrev.

(** One of the tokens that carry no name of their own. *)
Definition generic (a : pystr) : Prop :=
  lower a ∈ [py "saint"; py "the"; py ""].

(** The description the orthocal index holds for a reference, trimmed;
    [""] when there is none. *)
Definition orthocal_description (oca_ref : pystr)
    (orthocal_index : gmap pystr json_object) : pystr :=
  default []
    (if truthy oca_ref then
       match orthocal_index !! _norm oca_ref with
       | Some entry =>
           if bool_decide (entry ≠ ∅)
           then Some (strip (default [] (entry !! py "description")))
           else None
       | None => None
       end
     else None).

(** The key of a phrase: the phrase without its leading title token. *)
Definition key_of (text : pystr) : pystr :=
  strip (re_sub true title_prefix [] text).

(** The commemoration found for a phrase, with its article; the phrase
    itself when none is found. *)
Definition expand (text : pystr) (commemorations : list pystr) : pystr :=
  match _search_commemorations (key_of text) commemorations with
  | Some m => if truthy m then article m else text
  | None => text
  end.

(** The last resort: the first day title. *)
Definition from_day_titles (day_titles : list pystr) : pystr :=
  match day_titles with
  | title :: _ =>
      match re_match true day_title_pattern title with
      | Some m =>
          py "the " ++ group m 2 ++ py " " ++ group m 1 ++ py " after "
          ++ group m 3
      | None => if starts_with_digit title then py "the " ++ title else title
      end
  | [] => py ""
  end.

(** The article step as the specification words it, the leading
    ["The "] found whatever its case; to be compared with [article]. *)
Definition article_ignoring_case (m : pystr) : pystr :=
  let m := re_sub true leading_The (py "the ") m in
  if negb (startswith m (py "the "))
     && negb (matched (re_match true leading_Saint m))
  then py "the " ++ m
  else m.

(** A bare positional label as the specification describes it: digits,
    an ordinal suffix, white space, then the word ["reading"] in any
    case. *)
Definition bare_label (a : pystr) : Prop :=
  exists ds ws sp r,
    a = ds ++ ws ++ sp ++ r
    /\ ds <> [] /\ Forall (fun c => is_digit c = true) ds
    /\ Forall (fun c => is_word c = true) ws
    /\ sp <> [] /\ Forall (fun c => is_space c = true) sp
    /\ same_ignoring_case (py "reading") r.

(** An ordinal as the day-title pattern reads it: word characters, at
    least two, the first a digit. *)
Definition ordinal (o : pystr) : Prop :=
  Forall (fun c => is_word c = true) o
  /\ (2 <= length o)%nat
  /\ exists d rest, o = d :: rest /\ is_digit d = true.

(** A day title of the shape
    ["<Weekday> of the <Ordinal> week after <Feast>"], case ignored in
    the fixed words. *)
Definition week_title (weekday ordinal_ feast title : pystr) : Prop :=
  exists s1 s2,
    title = weekday ++ s1 ++ ordinal_ ++ s2 ++ feast
    /\ weekday <> [] /\ Forall (fun c => is_word c = true) weekday
    /\ same_ignoring_case (py " of the ") s1
    /\ ordinal ordinal_
    /\ same_ignoring_case (py " week after ") s2
    /\ feast <> [] /\ Forall (fun c => is_newline c = false) feast.

(** [s] begins with [p], case ignored. *)
Definition begins_ignoring_case (p s : pystr) : Prop :=
  exists u rest, s = u ++ rest /\ same_ignoring_case p u.

(** A title token of [title_prefix], in any case. *)
Definition title_token (t : pystr) : Prop :=
  exists p,
    p ∈ [py "St."; py "St"; py "Ven."; py "Ven"; py "Holy"; py "The"]
    /\ same_ignoring_case p t.

(** ** Notions used in the proofs *)

(** The alternation inside the group of [title_prefix]. *)
Definition title_alternation : regex :=
  Alt (Cat (Str (py "St")) (Opt (Lit (L1 "."))))
      (Alt (Cat (Str (py "Ven")) (Opt (Lit (L1 "."))))
           (Alt (Str (py "Holy")) (Str (py "The")))).

(** Two pieces of pattern text that differ, case ignored, in their first
    character. *)
Definition first_differs (p q : pystr) : Prop :=
  match p, q with
  | c :: _, q0 :: _ => char_eqb (to_lower q0) (to_lower c) = false
  | _, _ => False
  end.

(** The character before the position reached after reading [u]. *)
Definition last_of (prev : option char) (u : pystr) : option char :=
  match u with [] => prev | _ :: _ => last u end.

(** The head of [rest] is outside the class: a run of the class stops
    there. *)
Definition stops (s : cset) (rest : pystr) : Prop :=
  match rest with [] => True | x :: _ => cset_mem s x = false end.

(** The characters [_norm] keeps. *)
Definition kept (c : char) : bool := is_word c || char_eqb c (L1 "-").

(** What follows ["Composite "] in [composite_prefix]. *)
Definition composite_tail : regex :=
  Seq [Plus CDigit; Star CSpace; Lit (L1 "-"); Star CSpace].

(** The shape of the two patterns of [_expand_titles]. *)
Definition abbreviated (title : pystr) : regex :=
  Seq [Wordb; Str title; Lit (L1 "."); Plus CSpace].

(** * Properties *)

(** ** Characters *)

Ltac by_cases_on_char c :=
  destruct c as [[[] [] [] [] [] [] [] []]| |];
  vm_compute; try reflexivity; try discriminate; try tauto.

Lemma digit_is_word c : is_digit c = true -> is_word c = true.
Proof. by_cases_on_char c. Qed.

Lemma space_not_word c : is_space c = true -> is_word c = false.
Proof. by_cases_on_char c. Qed.

Lemma to_lower_idem c : to_lower (to_lower c) = to_lower c.
Proof. by_cases_on_char c. Qed.

Lemma to_lower_not_CapIDot c : to_lower c <> CapIDot.
Proof. by_cases_on_char c. Qed.

Lemma to_lower_word c : c <> CapIDot -> is_word (to_lower c) = is_word c.
Proof. by_cases_on_char c. Qed.

Lemma to_lower_space c : is_space c = true -> to_lower c = c.
Proof. by_cases_on_char c. Qed.

Lemma to_lower_digit c : is_digit (to_lower c) = is_digit c.
Proof. by_cases_on_char c. Qed.

Lemma to_lower_hyphen c : to_lower c = L1 "-" -> c = L1 "-".
Proof. by_cases_on_char c. Qed.

Lemma to_lower_blank c : to_lower c = L1 " " -> c = L1 " ".
Proof. by_cases_on_char c. Qed.

(** ** The matcher *)

Lemma consumed_one (c : char) t : (length (c :: t) - length t)%nat = 1%nat.
Proof. cbn [length]. lia. Qed.

(** Substituting the empty text for a one-character class deletes the
    characters of the class. *)
Lemma sub_class_deletes cs prev t :
  sub_from false (Cls cs) [] 0 prev t
  = filter (fun c => cset_mem cs c = false) t.
Proof.
  revert prev. induction t as [|a t IH]; intros prev; [reflexivity|].
  cbn [sub_from]. unfold match_at. cbn [run].
  destruct (cset_mem cs a) eqn:E.
  - unfold accept. cbn [after]. rewrite consumed_one. cbn [app sub_from].
    rewrite filter_cons_False by congruence.
    destruct t as [|b t]; [reflexivity|]. apply IH.
  - rewrite filter_cons_True by assumption. f_equal. apply IH.
Qed.

(** With an empty replacement the result is made of characters of the
    subject. *)
Lemma sub_from_Forall (P : char -> Prop) icase r skip prev s :
  Forall P s -> Forall P (sub_from icase r [] skip prev s).
Proof.
  intros H. revert skip prev.
  induction H as [|a s Ha Hs IH]; intros skip prev.
  - destruct skip; cbn [sub_from]; [|constructor].
    destruct (match_at icase r prev []); constructor.
  - destruct skip as [|n]; cbn [sub_from]; [|apply IH].
    destruct (match_at icase r prev (a :: s)) as [m|]; cbn [app].
    + destruct (length (a :: s) - length (after m))%nat;
        [constructor; [assumption|]|]; apply IH.
    + constructor; [assumption|apply IH].
Qed.

(** A pattern anchored with [^] matches nowhere but at the start. *)
Lemma sub_from_anchored icase r repl c s :
  sub_from icase (Cat Bol r) repl 0 (Some c) s = s.
Proof.
  revert c. induction s as [|a s IH]; intros c; [reflexivity|].
  cbn [sub_from]. unfold match_at. cbn [run]. f_equal. apply IH.
Qed.

Lemma sub_anchored_no_match icase r repl s :
  match_at icase (Cat Bol r) None s = None ->
  re_sub icase (Cat Bol r) repl s = s.
Proof.
  intros H. unfold re_sub. destruct s as [|a s]; cbn [sub_from]; rewrite H;
    [reflexivity|]. f_equal. apply sub_from_anchored.
Qed.

Lemma last_of_cons prev x u : last_of prev (x :: u) = last_of (Some x) u.
Proof. destruct u; reflexivity. Qed.

Lemma last_of_app prev u v : last_of prev (u ++ v) = last_of (last_of prev u) v.
Proof.
  revert prev. induction u as [|x u IH]; intros prev; [reflexivity|].
  cbn [app]. rewrite !last_of_cons. apply IH.
Qed.

(** What a literal piece of pattern consumes. *)
Lemma run_Str_inv {A} icase p (k : @cont A) g prev u v :
  run icase (Str p) k g prev u = Some v ->
  exists u1 u2, u = u1 ++ u2
    /\ Forall2 (fun c x => lit_eq icase c x = true) p u1
    /\ k g (last_of prev u1) u2 = Some v.
Proof.
  revert prev u. induction p as [|c p IH]; intros prev u H.
  - exists [], u. repeat split; [constructor|exact H].
  - cbn [Str run] in H. destruct u as [|x u]; [discriminate|].
    destruct (lit_eq icase c x) eqn:E; [|discriminate].
    destruct (IH _ _ H) as (u1 & u2 & -> & F & K).
    exists (x :: u1), u2. rewrite last_of_cons.
    repeat split; [constructor|]; assumption.
Qed.

Lemma run_Str_app {A} icase p (k : @cont A) g prev u1 rest :
  Forall2 (fun c x => lit_eq icase c x = true) p u1 ->
  run icase (Str p) k g prev (u1 ++ rest) = k g (last_of prev u1) rest.
Proof.
  intros F. revert prev. induction F as [|c x p u1 E F IH]; intros prev.
  - reflexivity.
  - cbn [Str run app]. rewrite E, last_of_cons. apply IH.
Qed.

(** A greedy repetition followed by a continuation that accepts at the
    end of the longest run. *)
Lemma star_greedy {A} s (k : @cont A) g prev xs rest v :
  Forall (fun x => cset_mem s x = true) xs -> stops s rest ->
  k g (last_of prev xs) rest = Some v ->
  star s k g prev (xs ++ rest) = Some v.
Proof.
  intros F St. revert prev. induction F as [|x xs Hx F IH]; intros prev K.
  - cbn [app]. destruct rest as [|y rest]; cbn [star]; [exact K|].
    cbn [stops] in St. rewrite St. exact K.
  - cbn [app star]. rewrite Hx. rewrite last_of_cons in K.
    now rewrite (IH _ K).
Qed.

(** A repetition succeeds as soon as the continuation accepts at the end
    of some run. *)
Lemma star_some {A} s (k : @cont A) g prev xs rest :
  Forall (fun x => cset_mem s x = true) xs ->
  k g (last_of prev xs) rest <> None ->
  star s k g prev (xs ++ rest) <> None.
Proof.
  intros F. revert prev. induction F as [|x xs Hx F IH]; intros prev K.
  - cbn [app]. destruct rest as [|y rest]; cbn [star]; [exact K|].
    destruct (cset_mem s y); [|exact K].
    destruct (star s k g (Some y) rest); [discriminate|exact K].
  - cbn [app star]. rewrite Hx. rewrite last_of_cons in K.
    specialize (IH _ K). destruct (star s k g (Some x) (xs ++ rest));
      [discriminate|contradiction].
Qed.

(** A repetition that gives one character back: the continuation refuses
    the longest run and accepts the run shortened by one. *)
Lemma star_backtrack_one {A} s (k : @cont A) g prev xs x rest v :
  Forall (fun x => cset_mem s x = true) xs -> cset_mem s x = true ->
  stops s rest ->
  k g (Some x) rest = None ->
  k g (last_of prev xs) (x :: rest) = Some v ->
  star s k g prev (xs ++ x :: rest) = Some v.
Proof.
  intros F Hx St K0. revert prev. induction F as [|y xs Hy F IH]; intros prev K.
  - cbn [app star]. rewrite Hx.
    assert (E : star s k g (Some x) rest = None).
    { destruct rest as [|z rest]; cbn [star]; [exact K0|].
      cbn [stops] in St. rewrite St. exact K0. }
    rewrite E. exact K.
  - cbn [app star]. rewrite Hy. rewrite last_of_cons in K.
    now rewrite (IH _ K).
Qed.

(** ** C8 and C10: [_norm] *)

Lemma kept_to_lower c : c <> CapIDot -> kept (to_lower c) = kept c.
Proof. by_cases_on_char c. Qed.

Lemma kept_not_blank c : kept c = true -> lit_eq true (L1 " ") c = false.
Proof. by_cases_on_char c. Qed.

Lemma strip_punct_filter t :
  re_sub false not_word_or_hyphen [] t = filter (fun c => kept c = true) t.
Proof.
  unfold re_sub, not_word_or_hyphen. rewrite sub_class_deletes.
  apply list_filter_iff. intros c. cbn [cset_mem]. fold (kept c).
  destruct (kept c); cbn [negb]; split; congruence.
Qed.

Lemma filter_kept_id t :
  Forall (fun c => kept c = true) t -> filter (fun c => kept c = true) t = t.
Proof.
  induction 1 as [|a t Ha Ht IH]; [reflexivity|].
  rewrite filter_cons_True by assumption. now rewrite IH.
Qed.

Lemma filter_kept_Forall t :
  Forall (fun c => kept c = true) (filter (fun c => kept c = true) t).
Proof.
  induction t as [|a t IH]; [constructor|].
  destruct (kept a) eqn:E.
  - rewrite filter_cons_True by assumption. now constructor.
  - rewrite filter_cons_False by congruence. exact IH.
Qed.

Lemma filter_Forall_other (P : char -> Prop) t :
  Forall P t -> Forall P (filter (fun c => kept c = true) t).
Proof.
  induction 1 as [|a t Ha Ht IH]; [constructor|].
  destruct (kept a) eqn:E.
  - rewrite filter_cons_True by assumption. now constructor.
  - rewrite filter_cons_False by congruence. exact IH.
Qed.

Lemma composite_prefix_eq :
  composite_prefix = Cat Bol (Cat (Str (py "Composite ")) composite_tail).
Proof. reflexivity. Qed.

(** No text made of kept characters starts with the composite prefix,
    which holds a blank. *)
Lemma composite_prefix_absent t :
  Forall (fun c => kept c = true) t ->
  re_sub true composite_prefix [] t = t.
Proof.
  intros Hk. rewrite composite_prefix_eq. apply sub_anchored_no_match.
  destruct (match_at true _ None t) as [v|] eqn:E; [|reflexivity].
  change (run true (Str (py "Composite ")) (run true composite_tail accept)
            ∅ None t = Some v) in E.
  exfalso. apply run_Str_inv in E. destruct E as (u1 & u2 & -> & F & _).
  apply Forall_app in Hk. destruct Hk as [Hk _].
  change (py "Composite ") with
    [L1 "C"; L1 "o"; L1 "m"; L1 "p"; L1 "o"; L1 "s"; L1 "i"; L1 "t"; L1 "e";
     L1 " "] in F.
  repeat match goal with
         | H : Forall2 _ (_ :: _) _ |- _ => inversion H; subst; clear H
         end.
  repeat match goal with
         | H : Forall _ (_ :: _) |- _ => inversion H; subst; clear H
         end.
  match goal with
  | H : lit_eq true (L1 " ") ?x = true, K : kept ?x = true |- _ =>
      rewrite (kept_not_blank _ K) in H; discriminate
  end.
Qed.

Lemma lower_without_CapIDot t :
  Forall (fun c => c <> CapIDot) t -> lower t = map to_lower t.
Proof.
  induction 1 as [|a t Ha Ht IH]; [reflexivity|].
  unfold lower in *. cbn [flat_map map]. rewrite IH.
  destruct a; try reflexivity. contradiction.
Qed.

Lemma norm_output s :
  Forall (fun c => c <> CapIDot) s ->
  Forall (fun c => kept c = true) (_norm s)
  /\ Forall (fun c => c <> CapIDot) (_norm s)
  /\ map to_lower (_norm s) = _norm s.
Proof.
  intros Hs. unfold _norm. rewrite strip_punct_filter.
  set (s1 := re_sub true composite_prefix [] s).
  assert (H1 : Forall (fun c => c <> CapIDot) s1)
    by (apply sub_from_Forall; exact Hs).
  pose proof (filter_kept_Forall s1) as Hk.
  pose proof (filter_Forall_other _ _ H1) as Hn.
  set (s2 := filter (fun c => kept c = true) s1) in *.
  rewrite (lower_without_CapIDot _ Hn). clearbody s2. clear -Hk Hn.
  induction s2 as [|a t IH]; [repeat split; constructor|].
  inversion Hk; subst. inversion Hn; subst.
  destruct IH as (I1 & I2 & I3); [assumption..|].
  cbn [map]. repeat split.
  - constructor; [|exact I1]. now rewrite kept_to_lower.
  - constructor; [apply to_lower_not_CapIDot|exact I2].
  - now rewrite to_lower_idem, I3.
Qed.



(** The guarded calls on strings are the ones of [build_occasion] and of
    [index_step]. *)
Lemma orthocal_entry_in_chain ref idx :
  orthocal_description ref idx
  = default []
      (match orthocal_entry (PyStr ref) idx with
       | inr (Some entry) =>
           if bool_decide (entry ≠ ∅)
           then Some (strip (default [] (entry !! py "description")))
           else None
       | _ => None
       end).
Proof.
  unfold orthocal_description, orthocal_entry. cbn [truthy_val].
  destruct (truthy ref); [|reflexivity].
  change (_norm_call (PyStr ref)) with (@inr exn pystr (_norm ref)).
  cbv beta iota. destruct (idx !! _norm ref); reflexivity.
Qed.

Lemma index_step_call_in_loop index r :
  index_step_call index (PyStr (display_of r)) r = inr (index_step index r).
Proof.
  unfold index_step_call, index_step. cbn [truthy_val]. cbv zeta.
  destruct (truthy (display_of r)); reflexivity.
Qed.

(** C10, as stated, fails on U+0130: lower-casing it yields ["i"] followed
    by U+0307, which is not a word character and which the second
    application removes. *)
Lemma norm_not_idempotent_at_U0130 :
  _norm (_norm [CapIDot]) <> _norm [CapIDot].
Proof. vm_compute. discriminate. Qed.

(** C10 (amended): on every string that does not contain U+0130,
    [_norm] is idempotent, [_norm (_norm s) = _norm s]: its output holds
    only lower-cased word characters and hyphens, which a second
    application leaves unchanged. *)
Theorem norm_idempotent_without_U0130 s :
  CapIDot ∉ s -> _norm (_norm s) = _norm s.
Proof.
  intros Hs.
  assert (H0 : Forall (fun c => c <> CapIDot) s).
  { apply Forall_forall. intros c Hc ->. exact (Hs Hc). }
  destruct (norm_output s H0) as (Hk & Hn & Hl).
  set (t := _norm s) in *. clearbody t. unfold _norm.
  rewrite (composite_prefix_absent t Hk), strip_punct_filter,
    (filter_kept_id t Hk), (lower_without_CapIDot t Hn).
  exact Hl.
Qed.

Lemma norm_idempotent_witness :
  (CapIDot ∉ py "Composite 3 - 1 Cor. 2:8-12")
  /\ _norm (_norm (py "Composite 3 - 1 Cor. 2:8-12"))
     = _norm (py "Composite 3 - 1 Cor. 2:8-12").
Proof.
  assert (H : CapIDot ∉ py "Composite 3 - 1 Cor. 2:8-12").
  { apply (bool_decide_unpack _). vm_compute. exact I. }
  split; [exact H|]. apply (norm_idempotent_without_U0130 _ H).
Defined.

(** ** C2: [_search_commemorations] *)

Lemma lit_eq_icase c x : lit_eq true c x = true <-> to_lower x = to_lower c.
Proof. unfold lit_eq. apply char_eqb_eq. Qed.

Lemma icase_Forall2 p u :
  Forall2 (fun c x => lit_eq true c x = true) p u <-> same_ignoring_case p u.
Proof.
  unfold same_ignoring_case.
  split; intros F; (eapply Forall2_impl; [exact F|]); intros c x;
    apply lit_eq_icase.
Qed.

Lemma xorb_boundary l r : xorb (word_side l) (word_side r) = true <-> boundary l r.
Proof.
  unfold boundary. destruct (word_side l), (word_side r); cbn;
    split; congruence.
Qed.

Lemma last_of_last pre mid : last_of (last pre) mid = last (pre ++ mid).
Proof.
  destruct mid as [|x mid]; cbn [last_of].
  - now rewrite app_nil_r.
  - rewrite last_app. destruct (last (x :: mid)) eqn:E; [reflexivity|].
    apply last_None in E. discriminate.
Qed.

Lemma matched_true (m : option rmatch) : matched m = true <-> m <> None.
Proof. destruct m; cbn; split; congruence. Qed.

(** The whole-word pattern at one position. *)
Lemma whole_word_at key prev u :
  matched (match_at true (whole_word key) prev u) = true <->
  boundary prev (head u)
  /\ exists mid post, u = mid ++ post /\ same_ignoring_case key mid
       /\ boundary (last_of prev mid) (head post).
Proof.
  unfold match_at, whole_word. cbn [Seq run].
  destruct (xorb (word_side prev) (word_side (head u))) eqn:B.
  - apply xorb_boundary in B. split.
    + intros M. split; [exact B|].
      destruct (run true (Str key) _ ∅ prev u) as [v|] eqn:E; [|discriminate].
      apply run_Str_inv in E. destruct E as (mid & post & -> & F & K).
      exists mid, post. repeat split; [now apply icase_Forall2|].
      apply xorb_boundary.
      destruct (xorb (word_side (last_of prev mid)) (word_side (head post)));
        [reflexivity|discriminate].
    + intros (_ & mid & post & -> & F & B2).
      rewrite run_Str_app by now apply icase_Forall2.
      apply xorb_boundary in B2. now rewrite B2.
  - split; [discriminate|]. intros (B' & _).
    apply xorb_boundary in B'. congruence.
Qed.

(** [re.search] finds a match exactly when some position has one. *)
Lemma search_from_some icase r prev u :
  matched (search_from icase r prev u) = true <->
  exists pre rest, u = pre ++ rest
    /\ matched (match_at icase r (last_of prev pre) rest) = true.
Proof.
  revert prev. induction u as [|x u IH]; intros prev; cbn [search_from].
  - destruct (match_at icase r prev []) eqn:E.
    + split; [|reflexivity]. intros _. exists [], []. cbn [last_of app]. now rewrite E.
    + split; [discriminate|]. intros (pre & rest & H & M).
      symmetry in H. apply app_eq_nil in H as [-> ->]. cbn in M.
      now rewrite E in M.
  - destruct (match_at icase r prev (x :: u)) eqn:E.
    + split; [|reflexivity]. intros _. exists [], (x :: u). cbn [last_of app]. now rewrite E.
    + rewrite IH. split.
      * intros (pre & rest & -> & M). exists (x :: pre), rest.
        now rewrite last_of_cons.
      * intros (pre & rest & H & M). destruct pre as [|y pre].
        -- cbn in H, M. subst rest. now rewrite E in M.
        -- injection H as -> ->. exists pre, rest.
           now rewrite last_of_cons in M.
Qed.

Lemma last_of_None pre : last_of None pre = last pre.
Proof. destruct pre; reflexivity. Qed.

Lemma search_whole_word key entry :
  matched (re_search true (whole_word key) entry) = true
  <-> contains_word key entry.
Proof.
  unfold re_search, contains_word. rewrite search_from_some. split.
  - intros (pre & rest & -> & M). apply whole_word_at in M.
    destruct M as (B1 & mid & post & -> & F & B2).
    rewrite last_of_None in B1, B2. rewrite last_of_last in B2.
    exists pre, mid, post. repeat split; assumption.
  - intros (pre & mid & post & -> & F & B1 & B2).
    exists pre, (mid ++ post). split; [reflexivity|].
    apply whole_word_at. rewrite last_of_None. split; [exact B1|].
    exists mid, post. rewrite last_of_last. repeat split; assumption.
Qed.

Lemma find_first {A} (f : A -> bool) l x :
  find f l = Some x <->
  exists l1 l2, l = l1 ++ x :: l2 /\ f x = true
    /\ Forall (fun y => f y = false) l1.
Proof.
  induction l as [|a l IH]; cbn [find].
  - split; [discriminate|]. intros (l1 & l2 & H & _). now destruct l1.
  - destruct (f a) eqn:E.
    + split.
      * intros [= ->]. exists [], l. repeat split; [exact E|constructor].
      * intros (l1 & l2 & H & Hx & F). destruct l1 as [|b l1].
        -- now injection H as ->.
        -- injection H as -> ->. inversion F; subst. congruence.
    + rewrite IH. split.
      * intros (l1 & l2 & -> & Hx & F). exists (a :: l1), l2.
        repeat split; [exact Hx|now constructor].
      * intros (l1 & l2 & H & Hx & F). destruct l1 as [|b l1].
        -- injection H as -> ->. congruence.
        -- injection H as -> ->. inversion F; subst. now exists l1, l2.
Qed.

Lemma find_nothing {A} (f : A -> bool) l :
  find f l = None <-> Forall (fun y => f y = false) l.
Proof.
  induction l as [|a l IH]; cbn [find]; [split; [constructor|reflexivity]|].
  destruct (f a) eqn:E.
  - split; [discriminate|]. intros F. inversion F; subst. congruence.
  - rewrite IH. split; [now constructor|]. intros F. now inversion F.
Qed.

Lemma not_matched_word key x :
  matched (re_search true (whole_word key) x) = false <-> ~ contains_word key x.
Proof.
  rewrite <- search_whole_word.
  destruct (matched _); split; congruence.
Qed.

Lemma search_commemorations_some key comms e :
  _search_commemorations key comms = Some e <->
  key <> []
  /\ exists l1 l2, comms = l1 ++ e :: l2 /\ contains_word key e
       /\ Forall (fun x => ~ contains_word key x) l1.
Proof.
  unfold _search_commemorations.
  destruct key as [|c key]; cbn [truthy negb orb].
  { split; [discriminate|]. now intros [H _]. }
  destruct comms as [|a comms].
  { cbn. split; [discriminate|]. intros (_ & l1 & l2 & H & _). now destruct l1. }
  rewrite bool_decide_true by discriminate. cbn [negb].
  rewrite find_first. split.
  - intros (l1 & l2 & H & Hx & F). split; [discriminate|].
    exists l1, l2. repeat split; [exact H|now apply search_whole_word|].
    eapply Forall_impl; [exact F|]. intros x. apply not_matched_word.
  - intros (_ & l1 & l2 & H & Hx & F). exists l1, l2.
    repeat split; [exact H|now apply search_whole_word|].
    eapply Forall_impl; [exact F|]. intros x. apply not_matched_word.
Qed.

Lemma search_commemorations_none key comms :
  _search_commemorations key comms = None <->
  key = [] \/ Forall (fun x => ~ contains_word key x) comms.
Proof.
  unfold _search_commemorations.
  destruct key as [|c key]; cbn [truthy negb orb].
  { split; [now left|reflexivity]. }
  destruct comms as [|a comms].
  { cbn. split; [right; constructor|reflexivity]. }
  rewrite bool_decide_true by discriminate. cbn [negb].
  rewrite find_nothing. split.
  - intros F. right. eapply Forall_impl; [exact F|].
    intros x. apply not_matched_word.
  - intros [H|F]; [discriminate|]. eapply Forall_impl; [exact F|].
    intros x. apply not_matched_word.
Qed.

(** C2: [_search_commemorations] returns the first entry, in the order
    supplied, that contains the key as a whole word, case ignored and the
    key taken literally; it returns nothing exactly when the key is
    empty or no entry contains it so (an empty list included); ["Ann"] is
    not found in ["Holy Anna the Prophetess"] and ["Anna"] is. *)
Theorem search_commemorations_first_whole_word :
  (forall key comms e,
     _search_commemorations key comms = Some e <->
     key <> []
     /\ exists l1 l2, comms = l1 ++ e :: l2 /\ contains_word key e
          /\ Forall (fun x => ~ contains_word key x) l1)
  /\ (forall key comms,
        _search_commemorations key comms = None <->
        key = [] \/ Forall (fun x => ~ contains_word key x) comms)
  /\ (forall comms, _search_commemorations [] comms = None)
  /\ (forall key, _search_commemorations key [] = None)
  /\ _search_commemorations (py "Ann") [py "Holy Anna the Prophetess"] = None
  /\ _search_commemorations (py "Anna") [py "Holy Anna the Prophetess"]
     = Some (py "Holy Anna the Prophetess").
Proof.
  split; [exact search_commemorations_some|].
  split; [exact search_commemorations_none|].
  split; [reflexivity|].
  split; [intros key; apply search_commemorations_none; right; constructor|].
  split; vm_compute; reflexivity.
Qed.

(** ** The resolution chain, step by step *)

Lemma build_occasion_steps a ref comms idx titles :
  build_occasion a ref comms idx titles =
  if truthy (cleaned a) && starts_with_digit (cleaned a) then
    py "the " ++ cleaned a
  else if truthy (cleaned a) && negb (bool_decide (generic (cleaned a))) then
    expand (cleaned a) comms
  else if truthy (orthocal_description ref idx) then
    if starts_with_digit (orthocal_description ref idx)
    then py "the " ++ orthocal_description ref idx
    else expand (orthocal_description ref idx) comms
  else from_day_titles titles.
Proof. reflexivity. Qed.

Lemma starts_with_digit_cons d rest :
  starts_with_digit (d :: rest) = is_digit d.
Proof.
  unfold starts_with_digit, re_match, match_at. cbn [run cset_mem].
  now destruct (is_digit d).
Qed.

Lemma truthy_true s : truthy s = true <-> s <> [].
Proof. destruct s; cbn; split; congruence. Qed.

(** ** C1: a weekday ordinal wins *)

(** C1: whenever the abbreviation, once its white space is collapsed and
    the bare positional label set aside, is non-empty and begins with a
    digit, [build_occasion] returns ["the "] followed by that
    abbreviation, whatever the reference, the commemorations, the
    orthocal index and the day titles. *)
Theorem weekday_ordinal_priority a ref comms idx titles d rest :
  cleaned a = d :: rest -> is_digit d = true ->
  build_occasion a ref comms idx titles = py "the " ++ cleaned a.
Proof.
  intros E Hd. rewrite build_occasion_steps, E, starts_with_digit_cons, Hd.
  reflexivity.
Qed.

Lemma weekday_ordinal_witness :
  build_occasion (py "30th Thursday after Pentecost") (py "Luke 20:9-18")
    [py "Holy Anna the Prophetess"] ∅ []
  = py "the 30th Thursday after Pentecost".
Proof.
  apply (weekday_ordinal_priority (py "30th Thursday after Pentecost")
           (py "Luke 20:9-18") [py "Holy Anna the Prophetess"] ∅ []
           (L1 "3") (py "0th Thursday after Pentecost"));
    vm_compute; reflexivity.
Defined.

(** ** C6: an abbreviation without a match is kept *)

(** C6: a non-empty abbreviation that is not generic (and not a weekday
    ordinal, which the first step takes) and whose key, the abbreviation
    without its title token, is contained as a whole word in no
    commemoration, is returned as it is: the result is the abbreviation
    itself (white space collapsed), never the empty string. *)
Theorem unmatched_abbreviation_kept a ref comms idx titles :
  cleaned a <> [] ->
  starts_with_digit (cleaned a) = false ->
  ~ generic (cleaned a) ->
  Forall (fun e => ~ contains_word (key_of (cleaned a)) e) comms ->
  build_occasion a ref comms idx titles = cleaned a
  /\ build_occasion a ref comms idx titles <> [].
Proof.
  intros Hne Hd Hg Hno.
  assert (E : build_occasion a ref comms idx titles = cleaned a).
  { rewrite build_occasion_steps, Hd, andb_false_r.
    rewrite (proj2 (truthy_true _) Hne), (bool_decide_false _ Hg).
    cbn [negb andb]. unfold expand.
    now rewrite (proj2 (search_commemorations_none _ _) (or_intror Hno)). }
  split; [exact E|]. now rewrite E.
Qed.

Lemma unmatched_abbreviation_witness :
  build_occasion (py "St.  Herman") (py "John 1:1")
    [py "The Circumcision of our Lord"] ∅ [] = py "St. Herman".
Proof.
  refine (proj1 (unmatched_abbreviation_kept (py "St.  Herman") (py "John 1:1")
                   [py "The Circumcision of our Lord"] ∅ [] _ _ _ _)).
  - vm_compute. discriminate.
  - vm_compute. reflexivity.
  - apply (bool_decide_unpack _). vm_compute. exact I.
  - constructor; [|constructor]. apply not_matched_word. vm_compute. reflexivity.
Defined.

(** ** C3: the generic "Saint" *)

Lemma orthocal_description_found ref idx entry d :
  ref <> [] -> idx !! _norm ref = Some entry ->
  entry !! py "description" = Some d ->
  orthocal_description ref idx = strip d.
Proof.
  intros Hr Hi Hd. unfold orthocal_description.
  rewrite (proj2 (truthy_true _) Hr), Hi.
  rewrite bool_decide_true; [now rewrite Hd|].
  intros ->. now rewrite lookup_empty in Hd.
Qed.

Lemma contains_word_matched key e :
  matched (re_search true (whole_word key) e) = true -> contains_word key e.
Proof. apply search_whole_word. Qed.

(** C3: for the abbreviation ["Saint"], when the orthocal index holds,
    under the normalized reference, the description ["St. Innocent"], and
    ["Saint Innocent, Bishop of Alaska"] is the first commemoration that
    contains the word ["Innocent"], [build_occasion] returns
    ["Saint Innocent, Bishop of Alaska"], without ["the "] before it. *)
Theorem generic_saint_resolved ref comms idx titles entry l1 l2 :
  ref <> [] ->
  idx !! _norm ref = Some entry ->
  entry !! py "description" = Some (py "St. Innocent") ->
  comms = l1 ++ py "Saint Innocent, Bishop of Alaska" :: l2 ->
  Forall (fun e => ~ contains_word (py "Innocent") e) l1 ->
  build_occasion (py "Saint") ref comms idx titles
  = py "Saint Innocent, Bishop of Alaska".
Proof.
  intros Hr Hi Hd Hc Hl.
  assert (Ec : cleaned (py "Saint") = py "Saint") by (vm_compute; reflexivity).
  assert (Eg : bool_decide (generic (py "Saint")) = true)
    by (vm_compute; reflexivity).
  assert (Ek : key_of (py "St. Innocent") = py "Innocent")
    by (vm_compute; reflexivity).
  assert (Ea : article (py "Saint Innocent, Bishop of Alaska")
               = py "Saint Innocent, Bishop of Alaska")
    by (vm_compute; reflexivity).
  assert (Es : _search_commemorations (py "Innocent") comms
               = Some (py "Saint Innocent, Bishop of Alaska")).
  { apply search_commemorations_some. split; [discriminate|].
    exists l1, l2. repeat split; [exact Hc| |exact Hl].
    apply contains_word_matched. vm_compute. reflexivity. }
  rewrite build_occasion_steps, Ec, Eg.
  rewrite (orthocal_description_found ref idx entry _ Hr Hi Hd).
  change (strip (py "St. Innocent")) with (py "St. Innocent").
  unfold expand. rewrite Ek, Es, Ea. reflexivity.
Qed.

Lemma generic_saint_witness :
  build_occasion (py "Saint") (py "John 10:9-16")
    [py "Repose of Ven. Herman of Alaska";
     py "Saint Innocent, Bishop of Alaska"]
    {[ py "john109-16" := {[ py "description" := py "St. Innocent" ]} ]} []
  = py "Saint Innocent, Bishop of Alaska".
Proof.
  apply (generic_saint_resolved (py "John 10:9-16")
           [py "Repose of Ven. Herman of Alaska";
            py "Saint Innocent, Bishop of Alaska"]
           {[ py "john109-16" := {[ py "description" := py "St. Innocent" ]} ]}
           [] {[ py "description" := py "St. Innocent" ]}
           [py "Repose of Ven. Herman of Alaska"] []).
  - discriminate.
  - replace (_norm (py "John 10:9-16")) with (py "john109-16")
      by (vm_compute; reflexivity).
    apply lookup_singleton_eq.
  - apply lookup_singleton_eq.
  - reflexivity.
  - constructor; [|constructor]. apply not_matched_word. vm_compute. reflexivity.
Defined.

(** ** C9: the Matins Gospel is read on Sundays only *)

Lemma keeps_weekday today r :
  weekday today <> 6 ->
  keeps today r = true -> r_type r <> py "Matins Gospel".
Proof.
  intros Hw Hk E. unfold keeps, is_sunday in Hk.
  rewrite (proj2 (N.eqb_neq _ _) Hw), E in Hk.
  vm_compute in Hk. discriminate.
Qed.

Lemma keeps_sunday today r :
  weekday today = 6 -> r_type r = py "Matins Gospel" -> keeps today r = true.
Proof.
  intros Hw E. unfold keeps, is_sunday.
  rewrite (proj2 (N.eqb_eq _ _) Hw), E. vm_compute. reflexivity.
Qed.

Lemma included_weekday today readings :
  weekday today <> 6 ->
  included today readings
  = included today
      (filter (fun x => r_type x <> py "Matins Gospel") readings).
Proof.
  intros Hw. unfold included. rewrite list_filter_filter.
  apply list_filter_iff. intros x. split; [|tauto].
  intros Hk. split; [exact Hk|]. now apply (keeps_weekday today).
Qed.

Lemma heading_line_in_markdown today comms idx titles readings r :
  r ∈ included today readings ->
  py "## [" ++ heading comms idx titles r ++ py "]("
    ++ reading_url today r ++ py ")"
  ∈ markdown_lines today comms idx titles readings.
Proof.
  intros Hr. unfold markdown_lines. cbv zeta.
  apply elem_of_app. right. apply elem_of_app. left.
  destruct (included today readings) as [|x inc] eqn:E.
  { now apply elem_of_nil in Hr. }
  apply list_elem_of_In, in_flat_map. exists r.
  split; [now apply list_elem_of_In|]. left. reflexivity.
Qed.

(** C9: a reading of type ["Matins Gospel"] is left out of the document
    when the date is not a Sunday: it is not among the readings kept, and
    the document is the one assembled without the Matins Gospel readings.
    On a Sunday it is kept, and its heading is exactly
    ["Matins Gospel reading (<reference>)"], with no occasion, which is
    the text of its heading line in the document. *)
Theorem matins_gospel_sunday_only today comms idx titles readings r :
  r ∈ readings -> r_type r = py "Matins Gospel" ->
  (weekday today <> 6 ->
     (r ∉ included today readings)
     /\ format_markdown today comms idx titles readings
        = format_markdown today comms idx titles
            (filter (fun x => r_type x <> py "Matins Gospel") readings))
  /\ (weekday today = 6 ->
        r ∈ included today readings
        /\ heading comms idx titles r
           = py "Matins Gospel reading (" ++ r_ref r ++ py ")"
        /\ py "## [Matins Gospel reading (" ++ r_ref r ++ py ")]("
             ++ reading_url today r ++ py ")"
           ∈ markdown_lines today comms idx titles readings).
Proof.
  intros Hr Ht. split; intros Hw.
  - split.
    + intros Hi. apply list_elem_of_filter in Hi as [Hk _].
      now apply (keeps_weekday today r Hw).
    + unfold format_markdown, markdown_lines.
      now rewrite <- (included_weekday today readings Hw).
  - assert (Hi : r ∈ included today readings).
    { apply list_elem_of_filter. split; [now apply keeps_sunday|exact Hr]. }
    assert (Hh : heading comms idx titles r
                 = py "Matins Gospel reading (" ++ r_ref r ++ py ")").
    { unfold heading. now rewrite bool_decide_true. }
    split; [exact Hi|]. split; [exact Hh|].
    pose proof (heading_line_in_markdown today comms idx titles readings r Hi)
      as Hl.
    rewrite Hh in Hl. rewrite <- !app_assoc in Hl. exact Hl.
Qed.

Lemma matins_gospel_witness :
  heading [] ∅ []
    {| r_index := 1; r_ref := py "John 20:1-10";
       r_type := py "Matins Gospel"; r_occasion := [];
       r_text := py "Now on the first day of the week" |}
  = py "Matins Gospel reading (John 20:1-10)"
  /\ ({| r_index := 1; r_ref := py "John 20:1-10";
         r_type := py "Matins Gospel"; r_occasion := [];
         r_text := py "Now on the first day of the week" |}
      ∉ included {| year := 2026; month := 11; day := 4 |}
          [{| r_index := 1; r_ref := py "John 20:1-10";
              r_type := py "Matins Gospel"; r_occasion := [];
              r_text := py "Now on the first day of the week" |}]).
Proof.
  split.
  - refine (proj1 (proj2 (proj2 (matins_gospel_sunday_only
      {| year := 2026; month := 1; day := 4 |} [] ∅ []
      [{| r_index := 1; r_ref := py "John 20:1-10";
          r_type := py "Matins Gospel"; r_occasion := [];
          r_text := py "Now on the first day of the week" |}]
      {| r_index := 1; r_ref := py "John 20:1-10";
         r_type := py "Matins Gospel"; r_occasion := [];
         r_text := py "Now on the first day of the week" |} _ _) _))).
    + apply list_elem_of_here.
    + reflexivity.
    + vm_compute. reflexivity.
  - refine (proj1 (proj1 (matins_gospel_sunday_only
      {| year := 2026; month := 11; day := 4 |} [] ∅ []
      [{| r_index := 1; r_ref := py "John 20:1-10";
          r_type := py "Matins Gospel"; r_occasion := [];
          r_text := py "Now on the first day of the week" |}]
      {| r_index := 1; r_ref := py "John 20:1-10";
         r_type := py "Matins Gospel"; r_occasion := [];
         r_text := py "Now on the first day of the week" |} _ _) _)).
    + apply list_elem_of_here.
    + reflexivity.
    + vm_compute. discriminate.
Defined.

(** ** C7: the article and the case of the leading "The" *)

Lemma sub_from_skip icase r repl prev u rest :
  sub_from icase r repl (length u) prev (u ++ rest)
  = sub_from icase r repl 0 (last_of prev u) rest.
Proof.
  revert prev. induction u as [|x u IH]; intros prev; [reflexivity|].
  cbn [length app sub_from]. rewrite last_of_cons. apply IH.
Qed.

(** A match that consumes [x :: u] is replaced, and the substitution goes
    on after it. *)
Lemma sub_from_match icase r repl prev x u rest m :
  match_at icase r prev (x :: u ++ rest) = Some m -> after m = rest ->
  sub_from icase r repl 0 prev (x :: u ++ rest)
  = repl ++ sub_from icase r repl 0 (last_of (Some x) u) rest.
Proof.
  intros H Ha. cbn [sub_from]. rewrite H, Ha. f_equal.
  replace (length (x :: u ++ rest) - length rest)%nat with (S (length u))
    by (cbn [length]; rewrite length_app; lia).
  apply sub_from_skip.
Qed.

Lemma last_of_is_Some c u : exists c', last_of (Some c) u = Some c'.
Proof.
  revert c. induction u as [|x u IH]; intros c; [now exists c|].
  rewrite last_of_cons. apply IH.
Qed.

Lemma exact_Forall2 p u :
  Forall2 (fun c x => lit_eq false c x = true) p u -> u = p.
Proof.
  induction 1 as [|c x p u E F IH]; [reflexivity|].
  apply char_eqb_eq in E. now subst.
Qed.

Lemma startswith_app p s q : startswith (p ++ s) (p ++ q) = startswith s q.
Proof.
  induction p as [|c p IH]; [reflexivity|].
  cbn [app startswith]. now rewrite char_eqb_refl.
Qed.

Lemma startswith_prefix p s : startswith (p ++ s) p = true.
Proof.
  induction p as [|c p IH]; [now destruct s|].
  cbn [app startswith]. now rewrite char_eqb_refl.
Qed.

(** Without a leading ["The"], written so, the substitution changes
    nothing. *)
Lemma leading_The_absent m :
  startswith m (py "The") = false ->
  re_sub false leading_The (py "the ") m = m.
Proof.
  intros H. unfold leading_The. cbn [Seq]. apply sub_anchored_no_match.
  unfold match_at. cbn [run].
  destruct (run false (Str (py "The")) _ ∅ None m) as [v|] eqn:E;
    [|reflexivity].
  apply run_Str_inv in E as (u1 & u2 & -> & F & _).
  apply exact_Forall2 in F as ->. now rewrite startswith_prefix in H.
Qed.

(** A leading ["The"] with the white space after it becomes ["the "]. *)
Lemma leading_The_present x sp rest :
  is_space x = true -> Forall (fun c => is_space c = true) sp ->
  stops CSpace rest ->
  re_sub false leading_The (py "the ") (py "The" ++ x :: sp ++ rest)
  = py "the " ++ rest.
Proof.
  intros Hx Hsp Hst. unfold re_sub.
  change (py "The" ++ x :: sp ++ rest)
    with (L1 "T" :: (L1 "h" :: L1 "e" :: x :: sp) ++ rest).
  rewrite (sub_from_match false leading_The (py "the ") None (L1 "T")
             (L1 "h" :: L1 "e" :: x :: sp) rest
             {| groups := ∅; after := rest |}); [|
    |reflexivity].
  - f_equal. destruct (last_of_is_Some (L1 "T") (L1 "h" :: L1 "e" :: x :: sp))
      as [c' ->].
    unfold leading_The. cbn [Seq]. apply sub_from_anchored.
  - change (L1 "T" :: (L1 "h" :: L1 "e" :: x :: sp) ++ rest)
      with (py "The" ++ x :: sp ++ rest).
    unfold match_at, leading_The. cbn [Seq run].
    rewrite run_Str_app by (repeat constructor).
    unfold Plus. cbn [run cset_mem]. rewrite Hx.
    apply star_greedy; [exact Hsp|exact Hst|reflexivity].
Qed.

(** The check for a leading ["Saint"] ignores case. *)
Lemma leading_Saint_found s rest :
  same_ignoring_case (py "Saint") s -> boundary (last s) (head rest) ->
  matched (re_match true leading_Saint (s ++ rest)) = true.
Proof.
  intros F B. unfold re_match, match_at, leading_Saint. cbn [Seq run].
  rewrite run_Str_app by (apply icase_Forall2; exact F).
  rewrite last_of_None. cbn [run].
  now rewrite (proj2 (xorb_boundary _ _) B).
Qed.

Lemma saint_first_letter s rest (p : pystr) c :
  same_ignoring_case (py "Saint") s -> to_lower c <> L1 "s" ->
  startswith (s ++ rest) (c :: p) = false.
Proof.
  intros F Hc. unfold same_ignoring_case in F.
  change (py "Saint") with (L1 "S" :: py "aint") in F.
  apply Forall2_cons_inv_l in F as (x & s' & Hx & _ & ->).
  cbn [app startswith]. destruct (char_eqb c x) eqn:E; [|reflexivity].
  apply char_eqb_eq in E. subst. exfalso. apply Hc. rewrite Hx.
  vm_compute. reflexivity.
Qed.

(** The doubled article arises where the commemoration carries it, and
    the upper-case article is left in place. *)
Lemma leading_The_matched_as_written :
  article (py "THE Circumcision of our Lord")
  <> article_ignoring_case (py "THE Circumcision of our Lord")
  /\ build_occasion (py "Circumcision") [] [py "THE Circumcision of our Lord"]
       ∅ []
     = py "the THE Circumcision of our Lord"
  /\ build_occasion (py "Lord") [] [py "The the Lord"] ∅ []
     = py "the the Lord".
Proof.
  split; [|split]; vm_compute; [discriminate|reflexivity|reflexivity].
Qed.

(** ** C4: a bare positional label counts as empty *)

Lemma spaces_no_match repl prev x rest :
  is_space x = false ->
  sub_from false (Plus CSpace) repl 0 prev (x :: rest)
  = x :: sub_from false (Plus CSpace) repl 0 (Some x) rest.
Proof.
  intros Hx. cbn [sub_from]. unfold match_at, Plus. cbn [run cset_mem].
  now rewrite Hx.
Qed.

(** Characters that are not white space are copied. *)
Lemma sub_spaces_copy repl prev u rest :
  Forall (fun c => is_space c = false) u ->
  sub_from false (Plus CSpace) repl 0 prev (u ++ rest)
  = u ++ sub_from false (Plus CSpace) repl 0 (last_of prev u) rest.
Proof.
  intros F. revert prev. induction F as [|x u Hx F IH]; intros prev.
  - reflexivity.
  - cbn [app]. rewrite spaces_no_match by exact Hx.
    rewrite last_of_cons. f_equal. apply IH.
Qed.

(** A whole run of white space is replaced at once. *)
Lemma sub_spaces_run repl prev x sp rest :
  is_space x = true -> Forall (fun c => is_space c = true) sp ->
  stops CSpace rest ->
  sub_from false (Plus CSpace) repl 0 prev (x :: sp ++ rest)
  = repl ++ sub_from false (Plus CSpace) repl 0 (last_of (Some x) sp) rest.
Proof.
  intros Hx Hsp Hst.
  apply (sub_from_match false (Plus CSpace) repl prev x sp rest
           {| groups := ∅; after := rest |}); [|reflexivity].
  unfold match_at, Plus. cbn [run cset_mem]. rewrite Hx.
  apply star_greedy; [exact Hsp|exact Hst|reflexivity].
Qed.

Lemma sub_spaces_end repl prev :
  sub_from false (Plus CSpace) repl 0 prev [] = [].
Proof. reflexivity. Qed.

Lemma lstrip_solid x u : is_space x = false -> lstrip (x :: u) = x :: u.
Proof. intros H. cbn [lstrip]. now rewrite H. Qed.

(** A text with no white space at either end is its own [strip]. *)
Lemma strip_solid x u y :
  is_space x = false -> is_space y = false ->
  strip (x :: u ++ [y]) = x :: u ++ [y].
Proof.
  intros Hx Hy. unfold strip, rstrip. rewrite (lstrip_solid x _ Hx).
  change (x :: u ++ [y]) with ((x :: u) ++ [y]).
  rewrite rev_unit, (lstrip_solid y _ Hy), <- rev_unit.
  apply rev_involutive.
Qed.

Lemma same_case_not_space c x :
  to_lower x = to_lower c -> is_space c = false -> is_space x = false.
Proof.
  intros E Hc. destruct (is_space x) eqn:Hx; [|reflexivity].
  rewrite (to_lower_space x Hx) in E. subst x.
  revert Hx Hc. by_cases_on_char c.
Qed.

Lemma sub_spaces_solid repl prev u :
  Forall (fun c => is_space c = false) u ->
  sub_from false (Plus CSpace) repl 0 prev u = u.
Proof.
  intros F. revert prev. induction F as [|x u Hx F IH]; intros prev.
  - reflexivity.
  - rewrite spaces_no_match by exact Hx. f_equal. apply IH.
Qed.

Lemma same_case_solid p r :
  Forall (fun c => is_space c = false) p -> same_ignoring_case p r ->
  Forall (fun c => is_space c = false) r.
Proof.
  intros Hp F. induction F as [|c x p r E F IH]; [constructor|].
  inversion Hp as [|c' p' Hc Hp']; subst. constructor.
  - now apply (same_case_not_space c).
  - now apply IH.
Qed.

Lemma reading_solid r :
  same_ignoring_case (py "reading") r ->
  Forall (fun c => is_space c = false) r.
Proof. apply same_case_solid. repeat constructor. Qed.

Lemma word_not_space c : is_word c = true -> is_space c = false.
Proof. by_cases_on_char c. Qed.

Lemma words_solid ws :
  Forall (fun c => is_word c = true) ws ->
  Forall (fun c => is_space c = false) ws.
Proof. intros F. eapply Forall_impl; [exact F|]. apply word_not_space. Qed.

Lemma digits_solid ds :
  Forall (fun c => is_digit c = true) ds ->
  Forall (fun c => is_space c = false) ds.
Proof.
  intros F. eapply Forall_impl; [exact F|].
  intros c H. now apply word_not_space, digit_is_word.
Qed.

Lemma solid_stops r :
  Forall (fun c => is_space c = false) r -> stops CSpace r.
Proof. intros F. destruct F; [exact I|assumption]. Qed.

(** The white space of a label collapses to one blank. *)
Lemma collapse_bare_label d ds ws x sp r :
  is_digit d = true -> Forall (fun c => is_digit c = true) ds ->
  Forall (fun c => is_word c = true) ws ->
  is_space x = true -> Forall (fun c => is_space c = true) sp ->
  same_ignoring_case (py "reading") r ->
  strip (re_sub false (Plus CSpace) (py " ")
           ((d :: ds) ++ ws ++ (x :: sp) ++ r))
  = d :: ds ++ ws ++ py " " ++ r.
Proof.
  intros Hd Hds Hws Hx Hsp Hr.
  pose proof (reading_solid r Hr) as Sr.
  assert (Sd : is_space d = false) by now apply word_not_space, digit_is_word.
  unfold re_sub. rewrite app_assoc.
  rewrite sub_spaces_copy
    by (apply Forall_app; split;
        [constructor; [exact Sd|now apply digits_solid]|now apply words_solid]).
  cbn [app]. rewrite sub_spaces_run by (try assumption; now apply solid_stops).
  rewrite sub_spaces_solid by exact Sr.
  assert (Hne : r <> []).
  { intros ->. apply Forall2_length in Hr. discriminate. }
  destruct (exists_last Hne) as (r0 & y & ->).
  apply Forall_app in Sr as [_ Sy]. inversion Sy as [|y' l' Hy _]; subst.
  replace (d :: (ds ++ ws) ++ py " " ++ r0 ++ [y])
    with (d :: (ds ++ ws ++ py " " ++ r0) ++ [y])
    by (now rewrite <- !app_assoc).
  rewrite (strip_solid d _ y Sd Hy). now rewrite <- !app_assoc.
Qed.

(** The collapsed label is matched in full. *)
Lemma label_fullmatch d ds ws r :
  is_digit d = true -> Forall (fun c => is_digit c = true) ds ->
  Forall (fun c => is_word c = true) ws ->
  same_ignoring_case (py "reading") r ->
  re_fullmatch true positional_label (d :: ds ++ ws ++ py " " ++ r) <> None.
Proof.
  intros Hd Hds Hws Hr.
  unfold re_fullmatch, positional_label, Plus. cbn [Seq run cset_mem].
  rewrite Hd. apply star_some; [exact Hds|]. cbn [run].
  apply star_some; [exact Hws|].
  change (py " " ++ r) with (L1 " " :: r). cbn [run cset_mem].
  change (is_space (L1 " ")) with true. cbv iota.
  apply (star_some CSpace _ _ _ [] r); [constructor|].
  cbn [run]. rewrite <- (app_nil_r r).
  rewrite run_Str_app by (apply icase_Forall2; exact Hr).
  cbn [run]. discriminate.
Qed.

Lemma bare_label_cleaned a : bare_label a -> cleaned a = [].
Proof.
  intros (ds & ws & sp & r & -> & Hne & Hds & Hws & Hsp & Fsp & Hr).
  destruct ds as [|d ds]; [contradiction|]. destruct sp as [|x sp];
    [contradiction|].
  inversion Hds as [|d' l' Hd Hds']; subst.
  inversion Fsp as [|x' l'' Hx Fsp']; subst.
  unfold cleaned. cbn [app truthy].
  change (d :: ds ++ ws ++ x :: sp ++ r)
    with ((d :: ds) ++ ws ++ (x :: sp) ++ r).
  rewrite (collapse_bare_label d ds ws x sp r) by assumption.
  cbn [truthy andb].
  now rewrite (proj2 (matched_true _) (label_fullmatch d ds ws r Hd Hds' Hws Hr)).
Qed.

(** C4: an abbreviation that is a bare positional label (digits, an
    ordinal suffix, white space, the word ["reading"] in any case) is
    treated as the empty abbreviation: [build_occasion] gives what it
    gives for [""], the result of the later steps of the chain, and gives
    [""] when there is no commemoration, no orthocal entry and no day
    title. *)
Theorem bare_label_neutralized a ref comms idx titles :
  bare_label a ->
  build_occasion a ref comms idx titles
  = build_occasion [] ref comms idx titles
  /\ build_occasion a ref [] ∅ [] = [].
Proof.
  intros H. rewrite !build_occasion_steps, (bare_label_cleaned a H).
  split; [reflexivity|].
  change (cleaned []) with (@nil char). cbn [truthy andb].
  unfold orthocal_description. rewrite lookup_empty.
  now destruct (truthy ref).
Qed.

Lemma bare_label_witness :
  build_occasion (py "1st reading") (py "John 1:1-17") [] ∅ [] = [].
Proof.
  refine (proj2 (bare_label_neutralized (py "1st reading") (py "John 1:1-17")
                   [] ∅ [] _)).
  exists (py "1"), (py "st"), (py " "), (py "reading").
  split; [reflexivity|]. split; [discriminate|].
  repeat split; try discriminate; repeat constructor.
Defined.

(** ** C5: the day title as the last resort *)

Lemma take_consumed (u rest : pystr) :
  take (length (u ++ rest) - length rest) (u ++ rest) = u.
Proof.
  replace (length (u ++ rest) - length rest)%nat with (length u)
    by (rewrite length_app; lia).
  apply take_app_length.
Qed.

(** One or more characters of a class, as many as there are. *)
Lemma run_plus_greedy {A} icase s (k : @cont A) g prev x xs rest v :
  cset_mem s x = true -> Forall (fun c => cset_mem s c = true) xs ->
  stops s rest ->
  k g (last_of (Some x) xs) rest = Some v ->
  run icase (Plus s) k g prev (x :: xs ++ rest) = Some v.
Proof.
  intros Hx Hxs Hst K. unfold Plus. cbn [run]. rewrite Hx.
  now apply star_greedy.
Qed.

Lemma run_plus_refused {A} icase s (k : @cont A) g prev rest :
  stops s rest -> run icase (Plus s) k g prev rest = None.
Proof.
  intros Hst. unfold Plus. cbn [run]. destruct rest as [|y rest];
    [reflexivity|]. cbn [stops] in Hst. now rewrite Hst.
Qed.

(** The longest run of a class at the head of a text. *)
Lemma span_class s (l : pystr) :
  exists xs rest, l = xs ++ rest
    /\ Forall (fun c => cset_mem s c = true) xs /\ stops s rest.
Proof.
  induction l as [|a l (xs & rest & -> & F & St)].
  - exists [], []. repeat split; constructor.
  - destruct (cset_mem s a) eqn:E.
    + exists (a :: xs), rest. repeat split; [now constructor|exact St].
    + exists [], (a :: xs ++ rest). repeat split; [constructor|exact E].
Qed.

Lemma stops_digit_word rest : stops CWord rest -> stops CDigit rest.
Proof.
  destruct rest as [|y rest]; [exact id|]. cbn [stops cset_mem]. intros H.
  destruct (is_digit y) eqn:E; [|reflexivity].
  apply digit_is_word in E. congruence.
Qed.

Lemma last_cons_app (pre : pystr) x u : last (pre ++ x :: u) = last_of (Some x) u.
Proof. now rewrite <- last_of_None, last_of_app, last_of_cons. Qed.

Lemma run_plus_nonempty {A} icase s (k : @cont A) g prev xs rest v :
  xs <> [] -> Forall (fun c => cset_mem s c = true) xs -> stops s rest ->
  k g (last xs) rest = Some v ->
  run icase (Plus s) k g prev (xs ++ rest) = Some v.
Proof.
  intros Hne F Hst K. destruct xs as [|x xs]; [contradiction|].
  inversion F as [|x' l' Hx F']; subst. cbn [app].
  now apply run_plus_greedy.
Qed.

Lemma run_plus_all {A} icase s (k : @cont A) g prev xs v :
  xs <> [] -> Forall (fun c => cset_mem s c = true) xs ->
  k g (last xs) [] = Some v ->
  run icase (Plus s) k g prev xs = Some v.
Proof.
  intros Hne F K.
  pose proof (run_plus_nonempty icase s k g prev xs [] v Hne F I K) as H.
  now rewrite app_nil_r in H.
Qed.

(** [\d+\w+] reads a whole ordinal, giving a digit back to [\w+] when the
    ordinal is made of digits only. *)
Lemma run_ordinal {A} icase (k : @cont A) g prev o rest v :
  ordinal o -> stops CWord rest ->
  k g (last o) rest = Some v ->
  run icase (Plus CDigit) (run icase (Plus CWord) k) g prev (o ++ rest)
  = Some v.
Proof.
  intros (Hw & Hlen & d & o' & -> & Hd) Hst K.
  inversion Hw as [|d' l' Hwd Hw']; subst.
  destruct (span_class CDigit o') as (ds & ws & -> & Fds & Sds).
  apply Forall_app in Hw' as [Hds Hws].
  destruct ws as [|w ws].
  - rewrite app_nil_r in *.
    assert (Hne : ds <> []) by (intros ->; cbn in Hlen; lia).
    destruct (exists_last Hne) as (ds0 & y & ->).
    apply Forall_app in Fds as [Fds0 Fy].
    inversion Fy as [|y' l'' Hy _]; subst.
    change (d :: ds0 ++ [y]) with ((d :: ds0) ++ [y]) in K.
    rewrite last_cons_app in K. cbn [last_of] in K.
    cbn [app]. rewrite <- app_assoc. cbn [app].
    unfold Plus at 1. cbn [run cset_mem]. rewrite Hd.
    apply star_backtrack_one; try assumption.
    + now apply stops_digit_word.
    + now apply run_plus_refused.
    + apply (run_plus_greedy icase CWord k g _ y [] rest v);
        [now apply digit_is_word|constructor|exact Hst|exact K].
  - inversion Hws as [|w' l'' Hww Hws']; subst.
    change (d :: ds ++ w :: ws) with ((d :: ds) ++ w :: ws) in K.
    rewrite last_cons_app in K.
    cbn [app]. rewrite <- app_assoc. cbn [app].
    apply run_plus_greedy; [exact Hd|exact Fds|exact Sds|].
    now apply run_plus_greedy.
Qed.

Lemma blank_stops p s rest :
  same_ignoring_case (L1 " " :: p) s -> stops CWord (s ++ rest).
Proof.
  intros F. apply Forall2_cons_inv_l in F as (x & s' & Hx & _ & ->).
  change (to_lower (L1 " ")) with (L1 " ") in Hx.
  apply to_lower_blank in Hx as ->. reflexivity.
Qed.

Lemma take_all (u : pystr) : take (length u - length (@nil char)) u = u.
Proof. cbn [length]. rewrite Nat.sub_0_r. apply firstn_all. Qed.

(** What the day-title pattern captures in a title of the expected
    shape. *)
Lemma day_title_match W O F title :
  week_title W O F title ->
  re_match true day_title_pattern title
  = Some {| groups := <[3%nat := F]> (<[2%nat := O]> (<[1%nat := W]> ∅));
            after := [] |}.
Proof.
  intros (s1 & s2 & -> & HW & FW & H1 & HO & H2 & HF & FF).
  unfold re_match, match_at, day_title_pattern. cbn [Seq run].
  apply run_plus_nonempty; [exact HW|exact FW|exact (blank_stops (py "of the ") s1 _ H1)|].
  cbv beta. rewrite take_consumed. cbn [run].
  rewrite run_Str_app by (apply icase_Forall2; exact H1).
  apply run_ordinal; [exact HO|exact (blank_stops (py "week after ") s2 _ H2)|].
  cbv beta. rewrite take_consumed. cbn [run].
  rewrite run_Str_app by (apply icase_Forall2; exact H2).
  apply run_plus_all; [exact HF| |].
  - eapply Forall_impl; [exact FF|]. intros c Hc. cbn [cset_mem].
    now rewrite Hc.
  - cbv beta. rewrite take_all. reflexivity.
Qed.

Lemma generic_no_digit a : generic a -> starts_with_digit a = false.
Proof.
  unfold generic. destruct a as [|c a]; [reflexivity|].
  rewrite starts_with_digit_cons. destruct c as [x| |]; try reflexivity.
  intros H. rewrite <- to_lower_digit.
  assert (E : to_lower (L1 x) = L1 "s" \/ to_lower (L1 x) = L1 "t").
  { unfold lower in H. cbn [flat_map lower_char app] in H.
    change (py "saint") with (L1 "s" :: py "aint") in H.
    change (py "the") with (L1 "t" :: py "he") in H.
    apply elem_of_cons in H as [H|H]; [left; now injection H|].
    apply elem_of_cons in H as [H|H]; [right; now injection H|].
    apply list_elem_of_singleton in H. discriminate. }
  destruct E as [-> | ->]; reflexivity.
Qed.

(** With an empty or generic abbreviation and no orthocal description the
    day titles decide. *)
Lemma build_occasion_last_resort a ref comms idx titles :
  generic (cleaned a) -> orthocal_description ref idx = [] ->
  build_occasion a ref comms idx titles = from_day_titles titles.
Proof.
  intros Hg Hd. rewrite build_occasion_steps, Hd.
  rewrite (generic_no_digit _ Hg), andb_false_r.
  rewrite (bool_decide_true _ Hg). cbn [negb truthy]. now rewrite andb_false_r.
Qed.

(** C5: when the abbreviation is empty or generic and the orthocal index
    gives no description, a first day title of the shape
    ["<Weekday> of the <Ordinal> week after <Feast>"], case ignored in the
    fixed words, is rendered ["the <Ordinal> <Weekday> after <Feast>"]. *)
Theorem day_title_rewritten a ref comms idx title titles W O F :
  generic (cleaned a) -> orthocal_description ref idx = [] ->
  week_title W O F title ->
  build_occasion a ref comms idx (title :: titles)
  = py "the " ++ O ++ py " " ++ W ++ py " after " ++ F.
Proof.
  intros Hg Hd Ht. rewrite (build_occasion_last_resort _ _ _ _ _ Hg Hd).
  unfold from_day_titles. rewrite (day_title_match W O F title Ht).
  unfold group. cbn [groups].
  rewrite lookup_insert_ne, lookup_insert_eq by discriminate.
  rewrite lookup_insert_ne, lookup_insert_ne, lookup_insert_eq by discriminate.
  rewrite lookup_insert_eq. reflexivity.
Qed.

Lemma day_title_witness :
  build_occasion [] [] [] ∅ [py "Thursday of the 30th week after Pentecost"]
  = py "the 30th Thursday after Pentecost".
Proof.
  refine (day_title_rewritten [] [] [] ∅
            (py "Thursday of the 30th week after Pentecost") []
            (py "Thursday") (py "30th") (py "Pentecost") _ _ _).
  - apply (bool_decide_unpack _). vm_compute. exact I.
  - reflexivity.
  - exists (py " of the "), (py " week after ").
    split; [reflexivity|]. split; [discriminate|].
    split; [repeat constructor|]. split; [repeat constructor|].
    split.
    { split; [repeat constructor|]. split; [cbn; lia|].
      exists (L1 "3"), (py "0th"). split; reflexivity. }
    split; [repeat constructor|]. split; [discriminate|repeat constructor].
Defined.

(** ** C7: the patterns of the chain and the case of letters *)

Lemma sub_from_match_app icase r repl prev u rest m :
  u <> [] -> match_at icase r prev (u ++ rest) = Some m -> after m = rest ->
  sub_from icase r repl 0 prev (u ++ rest)
  = repl ++ sub_from icase r repl 0 (last_of prev u) rest.
Proof.
  intros Hne H Ha. destruct u as [|x u]; [contradiction|].
  rewrite last_of_cons. now apply (sub_from_match icase r repl prev x u rest m).
Qed.

Lemma last_of_nonempty prev u : u <> [] -> exists c, last_of prev u = Some c.
Proof.
  intros H. destruct u as [|x u]; [contradiction|].
  rewrite last_of_cons. apply last_of_is_Some.
Qed.

Lemma space_or_hyphen_stops sp rest :
  Forall (fun c => is_space c = true) sp ->
  stops CDigit (sp ++ L1 "-" :: rest).
Proof.
  intros F. destruct F as [|x sp Hx F]; [reflexivity|].
  cbn [app stops cset_mem]. destruct (is_digit x) eqn:E; [|reflexivity].
  apply digit_is_word, word_not_space in E. congruence.
Qed.

(** The match of the composite prefix. *)
Lemma composite_prefix_match c ds sp1 sp2 rest :
  same_ignoring_case (py "Composite ") c ->
  ds <> [] -> Forall (fun x => is_digit x = true) ds ->
  Forall (fun x => is_space x = true) sp1 ->
  Forall (fun x => is_space x = true) sp2 ->
  stops CSpace rest ->
  match_at true composite_prefix None
    (c ++ ds ++ sp1 ++ L1 "-" :: sp2 ++ rest)
  = Some {| groups := ∅; after := rest |}.
Proof.
  intros Hc Hne Hds H1 H2 Hst. rewrite composite_prefix_eq.
  unfold match_at. cbn [run].
  rewrite run_Str_app by (apply icase_Forall2; exact Hc).
  unfold composite_tail. cbn [Seq run].
  apply run_plus_nonempty;
    [exact Hne|exact Hds|now apply space_or_hyphen_stops|].
  cbn [run]. apply star_greedy; [exact H1|reflexivity|].
  cbn [run]. change (lit_eq true (L1 "-") (L1 "-")) with true. cbv iota.
  apply star_greedy; [exact H2|exact Hst|reflexivity].
Qed.

Lemma composite_prefix_dropped c ds sp1 sp2 rest :
  same_ignoring_case (py "Composite ") c ->
  ds <> [] -> Forall (fun x => is_digit x = true) ds ->
  Forall (fun x => is_space x = true) sp1 ->
  Forall (fun x => is_space x = true) sp2 ->
  stops CSpace rest ->
  re_sub true composite_prefix [] (c ++ ds ++ sp1 ++ L1 "-" :: sp2 ++ rest)
  = rest.
Proof.
  intros Hc Hne Hds H1 H2 Hst.
  pose proof (composite_prefix_match c ds sp1 sp2 rest Hc Hne Hds H1 H2 Hst)
    as M.
  replace (c ++ ds ++ sp1 ++ L1 "-" :: sp2 ++ rest)
    with ((c ++ ds ++ sp1 ++ L1 "-" :: sp2) ++ rest) in *
    by (rewrite <- !app_assoc; cbn [app]; now rewrite <- ?app_assoc).
  assert (Hu : c ++ ds ++ sp1 ++ L1 "-" :: sp2 <> []).
  { intros E. apply app_eq_nil in E as [-> _].
    apply Forall2_length in Hc. discriminate. }
  unfold re_sub. rewrite (sub_from_match_app _ _ _ _ _ _ _ Hu M eq_refl).
  cbn [app]. destruct (last_of_nonempty None _ Hu) as [x ->].
  rewrite composite_prefix_eq. apply sub_from_anchored.
Qed.

Lemma title_prefix_eq :
  title_prefix
  = Cat Bol (Cat (Group 1 title_alternation) (Cat (Plus CSpace) Empty)).
Proof. reflexivity. Qed.

Lemma dot_not_space x : is_space x = true -> lit_eq true (L1 ".") x = false.
Proof. by_cases_on_char x. Qed.

(** An alternative whose first letter differs is refused at once. *)
Lemma token_mismatch {A} p q (k : @cont A) g prev t tail :
  same_ignoring_case q t -> first_differs p q ->
  run true (Str p) k g prev (t ++ tail) = None.
Proof.
  intros F D. destruct p as [|c p]; [destruct D|].
  destruct q as [|q0 q]; [destruct D|]. unfold same_ignoring_case in F.
  apply Forall2_cons_inv_l in F as (x & t' & Hx & _ & ->).
  cbn [app Str run]. unfold lit_eq. rewrite Hx.
  cbn [first_differs] in D. now rewrite D.
Qed.

Lemma opt_dot_with {A} p (k : @cont A) g prev t tail v :
  same_ignoring_case (p ++ py ".") t ->
  (forall prev', k g prev' tail = Some v) ->
  run true (Str p) (run true (Opt (Lit (L1 "."))) k) g prev (t ++ tail)
  = Some v.
Proof.
  intros F Hk. unfold same_ignoring_case in F.
  apply Forall2_app_inv_l in F as (t1 & t2 & F1 & F2 & ->).
  change (py ".") with [L1 "."] in F2.
  apply Forall2_cons_inv_l in F2 as (d & t3 & Hd & F3 & ->).
  apply Forall2_nil_inv_l in F3 as ->.
  rewrite <- app_assoc. rewrite run_Str_app by (apply icase_Forall2; exact F1).
  unfold Opt. cbn [app run].
  rewrite (proj2 (lit_eq_icase _ _) Hd). now rewrite Hk.
Qed.

Lemma opt_dot_without {A} p (k : @cont A) g prev t x tail v :
  same_ignoring_case p t -> is_space x = true ->
  (forall prev', k g prev' (x :: tail) = Some v) ->
  run true (Str p) (run true (Opt (Lit (L1 "."))) k) g prev (t ++ x :: tail)
  = Some v.
Proof.
  intros F Hx Hk. rewrite run_Str_app by (apply icase_Forall2; exact F).
  unfold Opt. cbn [run]. rewrite (dot_not_space x Hx). cbv iota. apply Hk.
Qed.

(** The alternation reads a title token in any case. *)
Lemma title_alternatives {A} (k : @cont A) g t x tail v :
  title_token t -> is_space x = true ->
  (forall prev, k g prev (x :: tail) = Some v) ->
  run true title_alternation k g None (t ++ x :: tail) = Some v.
Proof.
  intros (p & Hp & F) Hx Hk. unfold title_alternation. cbn [run].
  repeat (apply elem_of_cons in Hp as [-> | Hp]).
  - change (py "St.") with (py "St" ++ py ".") in F.
    now rewrite (opt_dot_with (py "St") k g None t (x :: tail) v F Hk).
  - now rewrite (opt_dot_without (py "St") k g None t x tail v F Hx Hk).
  - rewrite (token_mismatch (py "St") (py "Ven.") _ g None t (x :: tail) F)
      by reflexivity.
    change (py "Ven.") with (py "Ven" ++ py ".") in F.
    now rewrite (opt_dot_with (py "Ven") k g None t (x :: tail) v F Hk).
  - rewrite (token_mismatch (py "St") (py "Ven") _ g None t (x :: tail) F)
      by reflexivity.
    now rewrite (opt_dot_without (py "Ven") k g None t x tail v F Hx Hk).
  - rewrite (token_mismatch (py "St") (py "Holy") _ g None t (x :: tail) F)
      by reflexivity.
    rewrite (token_mismatch (py "Ven") (py "Holy") _ g None t (x :: tail) F)
      by reflexivity.
    rewrite run_Str_app by (apply icase_Forall2; exact F). now rewrite Hk.
  - rewrite (token_mismatch (py "St") (py "The") _ g None t (x :: tail) F)
      by reflexivity.
    rewrite (token_mismatch (py "Ven") (py "The") _ g None t (x :: tail) F)
      by reflexivity.
    rewrite (token_mismatch (py "Holy") (py "The") _ g None t (x :: tail) F)
      by reflexivity.
    rewrite run_Str_app by (apply icase_Forall2; exact F). apply Hk.
  - now apply elem_of_nil in Hp.
Qed.

Lemma title_prefix_match t x sp rest :
  title_token t -> is_space x = true ->
  Forall (fun c => is_space c = true) sp -> stops CSpace rest ->
  match_at true title_prefix None (t ++ x :: sp ++ rest)
  = Some {| groups := <[1%nat := t]> ∅; after := rest |}.
Proof.
  intros Ht Hx Hsp Hst. rewrite title_prefix_eq. unfold match_at. cbn [run].
  apply title_alternatives; [exact Ht|exact Hx|].
  intros prev. cbv beta. rewrite take_consumed. now apply run_plus_greedy.
Qed.

(** The title token and the white space after it are removed. *)
Lemma title_prefix_stripped t x sp rest :
  title_token t -> is_space x = true ->
  Forall (fun c => is_space c = true) sp -> stops CSpace rest ->
  re_sub true title_prefix [] (t ++ x :: sp ++ rest) = rest.
Proof.
  intros Ht Hx Hsp Hst.
  pose proof (title_prefix_match t x sp rest Ht Hx Hsp Hst) as M.
  replace (t ++ x :: sp ++ rest) with ((t ++ x :: sp) ++ rest) in *
    by (now rewrite <- app_assoc).
  assert (Hu : t ++ x :: sp <> []).
  { intros E. apply app_eq_nil in E as [_ E]. discriminate. }
  unfold re_sub. rewrite (sub_from_match_app _ _ _ _ _ _ _ Hu M eq_refl).
  cbn [app]. destruct (last_of_nonempty None _ Hu) as [c ->].
  rewrite title_prefix_eq. apply sub_from_anchored.
Qed.

Lemma from_day_titles_week W O F title titles :
  week_title W O F title ->
  from_day_titles (title :: titles)
  = py "the " ++ O ++ py " " ++ W ++ py " after " ++ F.
Proof.
  intros Ht. unfold from_day_titles. rewrite (day_title_match W O F title Ht).
  unfold group. cbn [groups].
  rewrite lookup_insert_ne, lookup_insert_eq by discriminate.
  rewrite lookup_insert_ne, lookup_insert_ne, lookup_insert_eq by discriminate.
  rewrite lookup_insert_eq. reflexivity.
Qed.

(** C7, amended: the pattern matches of the chain that carry the
    ignore-case flag do ignore case: the bare positional label, the title
    token stripped from an abbreviation or a description, the whole-word
    search of the commemorations, the check for a leading ["Saint"], the
    day-title pattern and the ["Composite"] prefix of a reference.  The one
    exception is the leading ["The"] of the article step, matched as it is
    written: a commemoration that does not begin with ["The"] is left as it
    is by the substitution, and one that begins with ["The"] and white
    space gets ["the "] in their place.  ["the "] is added only in front of
    a text that does not begin with ["the "]: the result begins with
    ["the the "] only if the commemoration, after the substitution, does so
    itself. *)
Theorem chain_patterns_and_case :
  (forall a, bare_label a -> cleaned a = [])
  /\ (forall t x sp rest,
        title_token t -> is_space x = true ->
        Forall (fun c => is_space c = true) sp -> stops CSpace rest ->
        key_of (t ++ x :: sp ++ rest) = strip rest)
  /\ (forall key entry,
        matched (re_search true (whole_word key) entry) = true
        <-> contains_word key entry)
  /\ (forall s rest,
        same_ignoring_case (py "Saint") s -> boundary (last s) (head rest) ->
        article (s ++ rest) = s ++ rest)
  /\ (forall W O F title titles,
        week_title W O F title ->
        from_day_titles (title :: titles)
        = py "the " ++ O ++ py " " ++ W ++ py " after " ++ F)
  /\ (forall c ds sp1 sp2 rest,
        same_ignoring_case (py "Composite ") c ->
        ds <> [] -> Forall (fun x => is_digit x = true) ds ->
        Forall (fun x => is_space x = true) sp1 ->
        Forall (fun x => is_space x = true) sp2 ->
        stops CSpace rest ->
        re_sub true composite_prefix []
          (c ++ ds ++ sp1 ++ L1 "-" :: sp2 ++ rest)
        = rest)
  /\ (forall m,
        startswith m (py "The") = false ->
        re_sub false leading_The (py "the ") m = m)
  /\ (forall x sp rest,
        is_space x = true -> Forall (fun c => is_space c = true) sp ->
        stops CSpace rest ->
        article (py "The" ++ x :: sp ++ rest) = py "the " ++ rest)
  /\ (forall m,
        startswith (re_sub false leading_The (py "the ") m) (py "the ") = true ->
        article m = re_sub false leading_The (py "the ") m)
  /\ (forall m,
        article m = re_sub false leading_The (py "the ") m
        \/ article m = py "the " ++ re_sub false leading_The (py "the ") m)
  /\ (forall m,
        startswith (article m) (py "the the ") = true ->
        startswith (re_sub false leading_The (py "the ") m) (py "the the ")
        = true).
Proof.
  split; [exact bare_label_cleaned|].
  split.
  { intros t x sp rest Ht Hx Hsp Hst. unfold key_of.
    now rewrite (title_prefix_stripped t x sp rest Ht Hx Hsp Hst). }
  split; [exact search_whole_word|].
  split.
  { intros s rest F B. unfold article. cbv zeta.
    rewrite leading_The_absent
      by (apply saint_first_letter; [exact F|vm_compute; discriminate]).
    rewrite (leading_Saint_found s rest F B).
    now rewrite andb_false_r. }
  split; [exact from_day_titles_week|].
  split; [exact composite_prefix_dropped|].
  split; [exact leading_The_absent|].
  split.
  { intros x sp rest Hx Hsp Hst. unfold article. cbv zeta.
    rewrite (leading_The_present x sp rest Hx Hsp Hst).
    now rewrite startswith_prefix. }
  assert (H : forall m,
            (startswith (re_sub false leading_The (py "the ") m) (py "the ")
             = true -> article m = re_sub false leading_The (py "the ") m)
            /\ (article m = re_sub false leading_The (py "the ") m
                \/ article m
                   = py "the " ++ re_sub false leading_The (py "the ") m)
            /\ (startswith (article m) (py "the the ") = true ->
                startswith (re_sub false leading_The (py "the ") m)
                  (py "the the ") = true)).
  { intros m. unfold article. cbv zeta.
    destruct (startswith (re_sub false leading_The (py "the ") m) (py "the "))
      eqn:E1; cbn [negb andb].
    { split; [reflexivity|]. split; [now left|]. tauto. }
    split; [discriminate|].
    destruct (matched (re_match true leading_Saint _)); cbn [negb].
    { split; [now left|]. tauto. }
    split; [now right|].
    change (py "the the ") with (py "the " ++ py "the ").
    rewrite startswith_app, E1. discriminate. }
  split; [intros m; apply H|]. split; intros m; apply H.
Qed.

Lemma chain_patterns_witness :
  key_of (py "st." ++ L1 " " :: [] ++ py "Herman of Alaska")
  = strip (py "Herman of Alaska")
  /\ article (py "The" ++ L1 " " :: [] ++ py "Circumcision of our Lord")
     = py "the " ++ py "Circumcision of our Lord".
Proof.
  split.
  - refine (proj1 (proj2 chain_patterns_and_case) (py "st.") (L1 " ") []
              (py "Herman of Alaska") _ _ _ _).
    + exists (py "St."). split; [apply list_elem_of_here|repeat constructor].
    + reflexivity.
    + constructor.
    + reflexivity.
  - refine (proj1 (proj2 (proj2 (proj2 (proj2 (proj2 (proj2 (proj2
              chain_patterns_and_case))))))) (L1 " ") []
              (py "Circumcision of our Lord") _ _ _).
    + reflexivity.
    + constructor.
    + reflexivity.
Defined.

(** * Further properties of the code *)

(** ** [build_orthocal_index] *)

Lemma index_step_lookup m r k :
  index_step m r !! k
  = if bool_decide (display_of r <> [] /\ k = _norm (display_of r))
    then Some r else m !! k.
Proof.
  unfold index_step. cbv zeta. destruct (display_of r) as [|c d] eqn:E.
  - cbn [truthy]. rewrite bool_decide_false; [reflexivity|]. now intros [H _].
  - cbn [truthy]. destruct (decide (k = _norm (c :: d))) as [->|Hk].
    + rewrite lookup_insert_eq, bool_decide_true; [reflexivity|].
      split; [discriminate|reflexivity].
    + rewrite lookup_insert_ne by congruence.
      rewrite bool_decide_false; [reflexivity|]. now intros [_ H].
Qed.

Lemma index_fold_sound l m k r :
  fold_left index_step l m !! k = Some r ->
  m !! k = Some r
  \/ (r ∈ l /\ display_of r <> [] /\ k = _norm (display_of r)).
Proof.
  revert m. induction l as [|x l IH]; intros m H; [now left|].
  cbn [fold_left] in H. apply IH in H as [H|(Hin & Hd & Hk)].
  - rewrite index_step_lookup in H. case_bool_decide as Hx.
    + injection H as ->. right. split; [apply list_elem_of_here|exact Hx].
    + now left.
  - right. split; [now apply list_elem_of_further|]. now split.
Qed.

Lemma index_fold_untouched l m k :
  Forall (fun r => display_of r <> [] -> _norm (display_of r) <> k) l ->
  fold_left index_step l m !! k = m !! k.
Proof.
  intros F. revert m. induction F as [|x l Hx F IH]; intros m; [reflexivity|].
  cbn [fold_left]. rewrite IH, index_step_lookup.
  rewrite bool_decide_false; [reflexivity|].
  intros [Hd Hk]. now apply Hx.
Qed.

Lemma index_fold_keeps_keys l m k :
  is_Some (m !! k) -> is_Some (fold_left index_step l m !! k).
Proof.
  revert m. induction l as [|x l IH]; intros m H; [exact H|].
  cbn [fold_left]. apply IH. rewrite index_step_lookup.
  case_bool_decide; [now eexists|exact H].
Qed.

(** X1: Every entry of the index is one of the readings, filed under the
    normalized form of its display reference, which is not empty. *)
Theorem orthocal_index_sound data k r :
  build_orthocal_index data !! k = Some r ->
  r ∈ default [] (od_readings data)
  /\ display_of r <> [] /\ k = _norm (display_of r).
Proof.
  intros H. apply index_fold_sound in H as [H|H]; [|exact H].
  now rewrite lookup_empty in H.
Qed.

Lemma index_after_reading l1 r :
  display_of r <> [] ->
  index_step (fold_left index_step l1 ∅) r !! _norm (display_of r) = Some r.
Proof.
  intros Hr. rewrite index_step_lookup, bool_decide_true; [reflexivity|].
  now split.
Qed.

Lemma index_lookup_last data l1 r l2 :
  od_readings data = Some (l1 ++ r :: l2) ->
  display_of r <> [] ->
  Forall (fun r' => display_of r' <> [] ->
                    _norm (display_of r') <> _norm (display_of r)) l2 ->
  build_orthocal_index data !! _norm (display_of r) = Some r.
Proof.
  intros Hd Hr F. unfold build_orthocal_index. rewrite Hd. simpl default.
  rewrite fold_left_app. cbn [fold_left].
  rewrite index_fold_untouched by exact F. now apply index_after_reading.
Qed.

(** X2: A reading with a display reference is found under its normalized
    reference unless a later reading takes the same key; in any case the
    key is in the index. *)
Theorem orthocal_index_last_wins data l1 r l2 :
  od_readings data = Some (l1 ++ r :: l2) ->
  display_of r <> [] ->
  is_Some (build_orthocal_index data !! _norm (display_of r))
  /\ (Forall (fun r' => display_of r' <> [] ->
                        _norm (display_of r') <> _norm (display_of r)) l2 ->
      build_orthocal_index data !! _norm (display_of r) = Some r).
Proof.
  intros Hd Hr. split; [|exact (index_lookup_last data l1 r l2 Hd Hr)].
  unfold build_orthocal_index. rewrite Hd. simpl default.
  rewrite fold_left_app. cbn [fold_left].
  apply index_fold_keeps_keys.
  rewrite (index_after_reading l1 r Hr). now eexists.
Qed.

Lemma orthocal_index_witness :
  build_orthocal_index
    {| od_readings := Some [ {[ py "display" := py "John 1.1-17" ]} ];
       od_titles := None |}
  !! _norm (py "John 1.1-17")
  = Some {[ py "display" := py "John 1.1-17" ]}.
Proof.
  refine (proj2 (orthocal_index_last_wins
    {| od_readings := Some [ {[ py "display" := py "John 1.1-17" ]} ];
       od_titles := None |}
    [] {[ py "display" := py "John 1.1-17" ]} [] _ _) _).
  - reflexivity.
  - unfold display_of. rewrite lookup_singleton_eq. discriminate.
  - constructor.
Defined.

Lemma display_single d : display_of {[ py "display" := d ]} = d.
Proof. unfold display_of. now rewrite lookup_singleton_eq. Qed.

Lemma index_of_single r t :
  display_of r <> [] ->
  build_orthocal_index {| od_readings := Some [r]; od_titles := t |}
  !! _norm (display_of r) = Some r.
Proof.
  intros H. unfold build_orthocal_index. simpl.
  rewrite index_step_lookup, bool_decide_true; [reflexivity|now split].
Qed.

Lemma orthocal_index_sound_witness :
  {[ py "display" := py "John 1.1-17" ]}
    ∈ [ ({[ py "display" := py "John 1.1-17" ]} : json_object) ]
  /\ display_of {[ py "display" := py "John 1.1-17" ]} <> []
  /\ _norm (display_of {[ py "display" := py "John 1.1-17" ]})
     = _norm (display_of {[ py "display" := py "John 1.1-17" ]}).
Proof.
  apply (orthocal_index_sound
           {| od_readings := Some [ {[ py "display" := py "John 1.1-17" ]} ];
              od_titles := None |}
           (_norm (display_of {[ py "display" := py "John 1.1-17" ]}))
           {[ py "display" := py "John 1.1-17" ]}).
  apply index_of_single. rewrite display_single. discriminate.
Defined.

(** X3: A reading whose ["display"] is present but empty is passed over, its
    ["short_display"] notwithstanding: the index is the one built without
    that reading. *)
Theorem empty_display_skipped l1 r l2 t :
  r !! py "display" = Some [] ->
  build_orthocal_index {| od_readings := Some (l1 ++ r :: l2); od_titles := t |}
  = build_orthocal_index {| od_readings := Some (l1 ++ l2); od_titles := t |}.
Proof.
  intros H. unfold build_orthocal_index. simpl default.
  rewrite !fold_left_app. cbn [fold_left]. f_equal.
  unfold index_step, display_of. now rewrite H.
Qed.

Lemma empty_display_witness :
  build_orthocal_index
    {| od_readings :=
         Some ([] ++ {[ py "display" := []; py "short_display" := py "Jn 1" ]}
                 :: []);
       od_titles := None |}
  = build_orthocal_index {| od_readings := Some ([] ++ []); od_titles := None |}.
Proof.
  apply (empty_display_skipped []
           {[ py "display" := []; py "short_display" := py "Jn 1" ]} [] None).
  apply lookup_insert_eq.
Defined.

(** X4: The index and the lookup of [build_occasion] fit together: a
    reference that normalizes like the display reference of a reading
    (the last one with that key) yields the description of that reading,
    trimmed. *)
Theorem description_through_index data l1 r l2 ref :
  od_readings data = Some (l1 ++ r :: l2) ->
  display_of r <> [] ->
  Forall (fun r' => display_of r' <> [] ->
                    _norm (display_of r') <> _norm (display_of r)) l2 ->
  ref <> [] -> _norm ref = _norm (display_of r) ->
  orthocal_description ref (build_orthocal_index data)
  = strip (default [] (r !! py "description")).
Proof.
  intros Hd Hr F Hne E. unfold orthocal_description.
  rewrite (proj2 (truthy_true _) Hne), E.
  rewrite (index_lookup_last data l1 r l2 Hd Hr F).
  rewrite bool_decide_true; [reflexivity|].
  intros ->. apply Hr. unfold display_of. now rewrite !lookup_empty.
Qed.

Lemma description_through_index_witness :
  orthocal_description (py "John 1:1-17")
    (build_orthocal_index
       {| od_readings :=
            Some ([] ++ <[ py "display" := py "John 1.1-17" ]>
                          {[ py "description" := py "St. Innocent" ]} :: []);
          od_titles := None |})
  = strip (default []
             ((<[ py "display" := py "John 1.1-17" ]>
                 {[ py "description" := py "St. Innocent" ]} : json_object)
                !! py "description")).
Proof.
  assert (Ed : display_of (<[ py "display" := py "John 1.1-17" ]>
                             {[ py "description" := py "St. Innocent" ]})
               = py "John 1.1-17").
  { unfold display_of. now rewrite lookup_insert_eq. }
  apply (description_through_index
           {| od_readings :=
                Some ([] ++ <[ py "display" := py "John 1.1-17" ]>
                              {[ py "description" := py "St. Innocent" ]}
                        :: []);
              od_titles := None |}
           [] (<[ py "display" := py "John 1.1-17" ]>
                 {[ py "description" := py "St. Innocent" ]}) []
           (py "John 1:1-17")).
  - reflexivity.
  - rewrite Ed. discriminate.
  - constructor.
  - discriminate.
  - rewrite Ed. vm_compute. reflexivity.
Defined.

(** ** [_norm], once more *)

Lemma composite_absent s :
  ~ begins_ignoring_case (py "Composite ") s ->
  re_sub true composite_prefix [] s = s.
Proof.
  intros H. rewrite composite_prefix_eq. apply sub_anchored_no_match.
  destruct (match_at true _ None s) as [v|] eqn:E; [|reflexivity].
  change (run true (Str (py "Composite ")) (run true composite_tail accept)
            ∅ None s = Some v) in E.
  exfalso. apply run_Str_inv in E as (u1 & u2 & -> & F & _).
  apply H. exists u1, u2. split; [reflexivity|now apply icase_Forall2].
Qed.

(** X5: On a reference without the ["Composite "] prefix, [_norm] keeps the
    word characters and the hyphens, in their order, lower-cased, and
    nothing else; two such references that agree in these characters
    normalize alike, whatever their punctuation and spacing. *)
Theorem norm_keeps_words_and_hyphens s :
  ~ begins_ignoring_case (py "Composite ") s ->
  _norm s = lower (filter (fun c => kept c = true) s)
  /\ forall t, ~ begins_ignoring_case (py "Composite ") t ->
       filter (fun c => kept c = true) s = filter (fun c => kept c = true) t ->
       _norm s = _norm t.
Proof.
  intros H.
  assert (E : forall u, ~ begins_ignoring_case (py "Composite ") u ->
                _norm u = lower (filter (fun c => kept c = true) u)).
  { intros u Hu. unfold _norm.
    now rewrite strip_punct_filter, (composite_absent u Hu). }
  split; [now apply E|]. intros t Ht Hf. now rewrite (E s H), (E t Ht), Hf.
Qed.

Lemma not_begins_first p0 p c s :
  to_lower c <> to_lower p0 -> ~ begins_ignoring_case (p0 :: p) (c :: s).
Proof.
  intros H (u & rest & E & F).
  apply Forall2_cons_inv_l in F as (x & u' & Hx & _ & ->).
  injection E as -> _. contradiction.
Qed.

Lemma norm_keeps_witness :
  _norm (py "John 1:1-17")
  = lower (filter (fun c => kept c = true) (py "John 1:1-17")).
Proof.
  refine (proj1 (norm_keeps_words_and_hyphens (py "John 1:1-17") _)).
  apply (not_begins_first (L1 "C") (py "omposite ") (L1 "J") (py "ohn 1:1-17")).
  vm_compute. discriminate.
Defined.

(** X6: A leading ["Composite N - "], in any case and with any white space
    around the hyphen, is dropped before the reference is normalized. *)
Theorem norm_drops_composite_prefix c ds sp1 sp2 rest :
  same_ignoring_case (py "Composite ") c ->
  ds <> [] -> Forall (fun x => is_digit x = true) ds ->
  Forall (fun x => is_space x = true) sp1 ->
  Forall (fun x => is_space x = true) sp2 ->
  stops CSpace rest ->
  _norm (c ++ ds ++ sp1 ++ py "-" ++ sp2 ++ rest)
  = lower (filter (fun x => kept x = true) rest).
Proof.
  intros Hc Hne Hds H1 H2 Hst. unfold _norm.
  rewrite strip_punct_filter. do 2 f_equal.
  change (py "-" ++ sp2 ++ rest) with (L1 "-" :: sp2 ++ rest).
  pose proof (composite_prefix_match c ds sp1 sp2 rest Hc Hne Hds H1 H2 Hst)
    as M.
  replace (c ++ ds ++ sp1 ++ L1 "-" :: sp2 ++ rest)
    with ((c ++ ds ++ sp1 ++ L1 "-" :: sp2) ++ rest) in *
    by (rewrite <- !app_assoc; cbn [app]; now rewrite <- ?app_assoc).
  assert (Hu : c ++ ds ++ sp1 ++ L1 "-" :: sp2 <> []).
  { intros E. apply app_eq_nil in E as [-> _].
    apply Forall2_length in Hc. discriminate. }
  unfold re_sub. rewrite (sub_from_match_app _ _ _ _ _ _ _ Hu M eq_refl).
  cbn [app]. destruct (last_of_nonempty None _ Hu) as [x ->].
  rewrite composite_prefix_eq. apply sub_from_anchored.
Qed.

Lemma norm_drops_composite_witness :
  _norm (py "Composite " ++ py "3" ++ py " " ++ py "-" ++ py " "
           ++ py "1 Cor. 2:8-12")
  = lower (filter (fun x => kept x = true) (py "1 Cor. 2:8-12")).
Proof.
  apply (norm_drops_composite_prefix (py "Composite ") (py "3") (py " ")
           (py " ") (py "1 Cor. 2:8-12")).
  - repeat constructor.
  - discriminate.
  - repeat constructor.
  - repeat constructor.
  - repeat constructor.
  - reflexivity.
Defined.

(** ** [build_occasion], the other branches *)

Lemma contains_word_nonempty key e :
  key <> [] -> contains_word key e -> e <> [].
Proof.
  intros Hk (pre & mid & post & -> & F & _) E.
  apply app_eq_nil in E as [_ E]. apply app_eq_nil in E as [-> _].
  apply Forall2_length in F. destruct key; [contradiction|discriminate].
Qed.

Lemma sub_nonempty icase r repl prev s :
  repl <> [] -> s <> [] -> sub_from icase r repl 0 prev s <> [].
Proof.
  intros Hr Hs. destruct s as [|c t]; [contradiction|]. cbn [sub_from].
  destruct (match_at icase r prev (c :: t)); [|discriminate].
  destruct repl; [contradiction|discriminate].
Qed.

Lemma article_nonempty m : m <> [] -> article m <> [].
Proof.
  intros H. unfold article. cbv zeta.
  destruct (negb _ && negb _); [discriminate|].
  apply sub_nonempty; [discriminate|exact H].
Qed.

(** X7: A named abbreviation that is found gives the first commemoration
    that contains its key as a whole word, with the article settled. *)
Theorem named_abbreviation_expanded a ref comms idx titles l1 e l2 :
  cleaned a <> [] -> starts_with_digit (cleaned a) = false ->
  ~ generic (cleaned a) -> key_of (cleaned a) <> [] ->
  comms = l1 ++ e :: l2 ->
  contains_word (key_of (cleaned a)) e ->
  Forall (fun x => ~ contains_word (key_of (cleaned a)) x) l1 ->
  build_occasion a ref comms idx titles = article e.
Proof.
  intros Hne Hd Hg Hk Hc He Hl.
  rewrite build_occasion_steps, Hd, andb_false_r.
  rewrite (proj2 (truthy_true _) Hne), (bool_decide_false _ Hg).
  cbn [negb andb]. unfold expand.
  rewrite (proj2 (search_commemorations_some _ _ e)).
  - now rewrite (proj2 (truthy_true e) (contains_word_nonempty _ _ Hk He)).
  - split; [exact Hk|]. now exists l1, l2.
Qed.

Lemma named_abbreviation_witness :
  build_occasion (py "Circumcision") [] 
    ([py "Saint Basil the Great"] ++ py "The Circumcision of our Lord" :: [])
    ∅ []
  = article (py "The Circumcision of our Lord").
Proof.
  apply (named_abbreviation_expanded (py "Circumcision") [] _ ∅ []
           [py "Saint Basil the Great"] (py "The Circumcision of our Lord") []).
  - vm_compute. discriminate.
  - vm_compute. reflexivity.
  - apply (bool_decide_unpack _). vm_compute. exact I.
  - vm_compute. discriminate.
  - reflexivity.
  - apply contains_word_matched. vm_compute. reflexivity.
  - constructor; [|constructor]. apply not_matched_word. vm_compute. reflexivity.
Defined.

(** X8: A named abbreviation is never lost: whatever the other data, the
    result for a non-empty, non-generic abbreviation is not empty. *)
Theorem named_abbreviation_never_empty a ref comms idx titles :
  cleaned a <> [] -> ~ generic (cleaned a) ->
  build_occasion a ref comms idx titles <> [].
Proof.
  intros Hne Hg. rewrite build_occasion_steps.
  rewrite (proj2 (truthy_true _) Hne), (bool_decide_false _ Hg).
  cbn [negb andb]. destruct (starts_with_digit (cleaned a)); [discriminate|].
  unfold expand.
  destruct (_search_commemorations _ comms) as [m|]; [|exact Hne].
  destruct (truthy m) eqn:E; [|exact Hne].
  apply article_nonempty. now apply truthy_true.
Qed.

Lemma named_abbreviation_never_empty_witness :
  build_occasion (py "Circumcision") [] [py "The Circumcision of our Lord"]
    ∅ [] <> [].
Proof.
  apply (named_abbreviation_never_empty (py "Circumcision") []
           [py "The Circumcision of our Lord"] ∅ []).
  - vm_compute. discriminate.
  - apply (bool_decide_unpack _). vm_compute. exact I.
Defined.

(** X9: With an empty or generic abbreviation, an orthocal description that
    begins with a digit is a weekday ordinal and is returned after
    ["the "]. *)
Theorem orthocal_ordinal_returned a ref comms idx titles d rest :
  generic (cleaned a) ->
  orthocal_description ref idx = d :: rest -> is_digit d = true ->
  build_occasion a ref comms idx titles = py "the " ++ d :: rest.
Proof.
  intros Hg Hd Hdig. rewrite build_occasion_steps, Hd.
  rewrite (generic_no_digit _ Hg), andb_false_r.
  rewrite (bool_decide_true _ Hg). cbn [negb truthy]. rewrite andb_false_r.
  now rewrite starts_with_digit_cons, Hdig.
Qed.

Lemma orthocal_ordinal_witness :
  build_occasion (py "Saint") (py "Luke 1:1")
    [] {[ py "luke11" := {[ py "description" := py "30th Thursday" ]} ]} []
  = py "the " ++ L1 "3" :: py "0th Thursday".
Proof.
  apply (orthocal_ordinal_returned (py "Saint") (py "Luke 1:1") []
           {[ py "luke11" := {[ py "description" := py "30th Thursday" ]} ]}
           [] (L1 "3") (py "0th Thursday")).
  - apply (bool_decide_unpack _). vm_compute. exact I.
  - rewrite (orthocal_description_found (py "Luke 1:1") _
               {[ py "description" := py "30th Thursday" ]}
               (py "30th Thursday")).
    + vm_compute. reflexivity.
    + discriminate.
    + replace (_norm (py "Luke 1:1")) with (py "luke11")
        by (vm_compute; reflexivity).
      apply lookup_singleton_eq.
    + apply lookup_singleton_eq.
  - reflexivity.
Defined.

(** ** Headings *)

(** X11: With nothing to go on (an empty or generic abbreviation, no orthocal
    description, no day title) the heading of a reading carries no
    occasion: it is ["<type> reading (<reference>)"]. *)
Theorem heading_without_occasion comms idx r :
  r_type r <> py "Matins Gospel" -> generic (cleaned (r_occasion r)) ->
  orthocal_description (r_ref r) idx = [] ->
  heading comms idx [] r = r_type r ++ py " reading (" ++ r_ref r ++ py ")".
Proof.
  intros Ht Hg Hd. unfold heading. rewrite (bool_decide_false _ Ht).
  cbv zeta. now rewrite (build_occasion_last_resort _ _ _ _ _ Hg Hd).
Qed.

Lemma heading_without_occasion_witness :
  heading [py "Saint Basil the Great"] ∅ []
    {| r_index := 2; r_ref := py "Hebrews 10:35-11:7"; r_type := py "Epistle";
       r_occasion := []; r_text := [] |}
  = py "Epistle" ++ py " reading (" ++ py "Hebrews 10:35-11:7" ++ py ")".
Proof.
  apply (heading_without_occasion [py "Saint Basil the Great"] ∅
    {| r_index := 2; r_ref := py "Hebrews 10:35-11:7"; r_type := py "Epistle";
       r_occasion := []; r_text := [] |}).
  - vm_compute. discriminate.
  - apply (bool_decide_unpack _). vm_compute. exact I.
  - unfold orthocal_description. rewrite lookup_empty. reflexivity.
Defined.

(** X12: A reading whose occasion is a weekday ordinal is headed
    ["<type> reading for the <ordinal> (<reference>)"]. *)
Theorem heading_with_ordinal comms idx titles r d rest :
  r_type r <> py "Matins Gospel" ->
  cleaned (r_occasion r) = d :: rest -> is_digit d = true ->
  heading comms idx titles r
  = r_type r ++ py " reading for the " ++ d :: rest ++ py " (" ++ r_ref r
    ++ py ")".
Proof.
  intros Ht Hc Hd. unfold heading. rewrite (bool_decide_false _ Ht).
  cbv zeta.
  rewrite build_occasion_steps, Hc, starts_with_digit_cons, Hd.
  reflexivity.
Qed.

Lemma heading_with_ordinal_witness :
  heading [] ∅ []
    {| r_index := 1; r_ref := py "Luke 20:9-18"; r_type := py "Gospel";
       r_occasion := py "30th  Thursday after Pentecost"; r_text := [] |}
  = py "Gospel" ++ py " reading for the "
    ++ L1 "3" :: py "0th Thursday after Pentecost" ++ py " ("
    ++ py "Luke 20:9-18" ++ py ")".
Proof.
  apply (heading_with_ordinal [] ∅ []
    {| r_index := 1; r_ref := py "Luke 20:9-18"; r_type := py "Gospel";
       r_occasion := py "30th  Thursday after Pentecost"; r_text := [] |}
    (L1 "3") (py "0th Thursday after Pentecost")).
  - vm_compute. discriminate.
  - vm_compute. reflexivity.
  - reflexivity.
Defined.

(** ** The document *)

Lemma keeps_false_cases today r :
  r_type r = [] \/ (r_type r = py "Matins Gospel" /\ weekday today <> 6) ->
  keeps today r = false.
Proof.
  unfold keeps, is_sunday. intros [E|[E Hw]]; rewrite E; [reflexivity|].
  rewrite (proj2 (N.eqb_neq _ _) Hw). vm_compute. reflexivity.
Qed.

Lemma included_nothing today readings :
  Forall (fun r => keeps today r = false) readings ->
  included today readings = [].
Proof.
  unfold included. induction 1 as [|r l Hr F IH]; [reflexivity|].
  rewrite filter_cons_False by congruence. exact IH.
Qed.

(** X13: When no reading remains (each one has no type, or is a Matins Gospel
    on a day other than Sunday) the document is the one for no readings
    at all, with the line that says so. *)
Theorem no_readings_document today comms idx titles readings :
  Forall (fun r => r_type r = []
                   \/ (r_type r = py "Matins Gospel" /\ weekday today <> 6))
    readings ->
  format_markdown today comms idx titles readings
  = format_markdown today comms idx titles []
  /\ py "*No readings found for this date.*"
     ∈ markdown_lines today comms idx titles readings.
Proof.
  intros F.
  assert (E : included today readings = []).
  { apply included_nothing. eapply Forall_impl; [exact F|].
    intros r. apply keeps_false_cases. }
  unfold format_markdown, markdown_lines. rewrite E. split; [reflexivity|].
  cbv zeta. apply elem_of_app. right. apply elem_of_app. left.
  apply list_elem_of_here.
Qed.

Lemma no_readings_witness :
  format_markdown {| year := 2026; month := 11; day := 4 |} [] ∅ []
    [{| r_index := 1; r_ref := py "John 20:1-10";
        r_type := py "Matins Gospel"; r_occasion := []; r_text := [] |};
     {| r_index := 2; r_ref := py "Link text"; r_type := [];
        r_occasion := []; r_text := [] |}]
  = format_markdown {| year := 2026; month := 11; day := 4 |} [] ∅ [] [].
Proof.
  refine (proj1 (no_readings_document
    {| year := 2026; month := 11; day := 4 |} [] ∅ [] _ _)).
  constructor; [|constructor; [|constructor]].
  - right. split; [reflexivity|]. vm_compute. discriminate.
  - left. reflexivity.
Defined.

Lemma join_lines_cons l rest :
  rest <> [] ->
  join_lines (l :: rest)
  = l ++ py (String "010" EmptyString) ++ join_lines rest.
Proof. intros H. destruct rest; [contradiction|reflexivity]. Qed.

Lemma join_lines_app l1 l2 :
  l1 <> [] -> l2 <> [] ->
  join_lines (l1 ++ l2)
  = join_lines l1 ++ py (String "010" EmptyString) ++ join_lines l2.
Proof.
  intros H1 H2. induction l1 as [|a l1 IH]; [contradiction|].
  destruct l1 as [|b l1].
  - cbn [app]. now rewrite join_lines_cons.
  - change ((a :: b :: l1) ++ l2) with (a :: (b :: l1) ++ l2).
    rewrite !join_lines_cons by discriminate.
    rewrite IH by discriminate. now rewrite <- !app_assoc.
Qed.

Lemma join_lines_frame (p t h : pystr) mid :
  join_lines ([p ++ t; py ""] ++ mid ++ [h; py ""])
  = p ++ (t ++ py (String "010" EmptyString) ++ join_lines (py "" :: mid))
    ++ py (String "010" EmptyString) ++ h ++ py (String "010" EmptyString).
Proof.
  rewrite app_assoc, join_lines_app by discriminate.
  cbn [app]. rewrite join_lines_cons by discriminate.
  change (join_lines [h; py ""])
    with (h ++ py (String "010" EmptyString) ++ []).
  rewrite app_nil_r. now rewrite <- !app_assoc.
Qed.

(** X14: Whatever the readings, the document opens with the title heading and
    closes with the hashtag line and a final line break. *)
Theorem document_frame today comms idx titles readings :
  exists body,
    format_markdown today comms idx titles readings
    = py "# [Scripture Readings for " ++ body
      ++ py (String "010" EmptyString) ++ HASHTAGS
      ++ py (String "010" EmptyString).
Proof.
  unfold format_markdown, markdown_lines. cbv zeta.
  eexists. apply join_lines_frame.
Qed.

Lemma collect_readings_app l1 l2 :
  collect_readings (l1 ++ l2) = collect_readings l1 ++ collect_readings l2.
Proof.
  induction l1 as [|[[i t] [pg|]] l1 IH]; cbn [app collect_readings];
    [reflexivity| |exact IH]. now rewrite IH.
Qed.

Lemma included_app today l1 l2 :
  included today (l1 ++ l2) = included today l1 ++ included today l2.
Proof. unfold included. apply filter_app. Qed.

(** X15: A page that yields no reading type (the heading could not be parsed,
    or the type is empty) leaves no trace in the document. *)
Theorem untyped_page_dropped today comms idx titles l1 i text pg l2 :
  p_type pg = None \/ p_type pg = Some [] ->
  format_markdown today comms idx titles
    (collect_readings (l1 ++ (i, text, Some pg) :: l2))
  = format_markdown today comms idx titles (collect_readings (l1 ++ l2)).
Proof.
  intros H.
  assert (E : included today (collect_readings (l1 ++ (i, text, Some pg) :: l2))
              = included today (collect_readings (l1 ++ l2))).
  { rewrite !collect_readings_app, !included_app. f_equal.
    cbn [collect_readings]. unfold included.
    rewrite filter_cons_False; [reflexivity|].
    unfold keeps, reading_of_page. cbn [r_type].
    destruct H as [-> | ->]; cbn; discriminate. }
  unfold format_markdown, markdown_lines. now rewrite E.
Qed.

Lemma untyped_page_witness :
  format_markdown {| year := 2026; month := 1; day := 4 |} [] ∅ []
    (collect_readings
       ([] ++ (1, py "John 1:1-17",
               Some {| p_ref := None; p_type := None; p_occasion := None;
                       p_text := None |}) :: []))
  = format_markdown {| year := 2026; month := 1; day := 4 |} [] ∅ []
      (collect_readings ([] ++ [])).
Proof.
  apply (untyped_page_dropped {| year := 2026; month := 1; day := 4 |} [] ∅ []
           [] 1 (py "John 1:1-17")
           {| p_ref := None; p_type := None; p_occasion := None;
              p_text := None |} []).
  left. reflexivity.
Defined.

(** X16: Every reading that has a type other than ["Matins Gospel"] is in the
    document, whatever the day: its heading line, linked to its page, is
    one of the lines. *)
Theorem typed_reading_listed today comms idx titles readings r :
  r ∈ readings -> r_type r <> [] -> r_type r <> py "Matins Gospel" ->
  py "## [" ++ heading comms idx titles r ++ py "]("
    ++ reading_url today r ++ py ")"
  ∈ markdown_lines today comms idx titles readings.
Proof.
  intros Hr Ht Hm. apply heading_line_in_markdown.
  apply list_elem_of_filter. split; [|exact Hr].
  unfold keeps. rewrite (proj2 (truthy_true _) Ht).
  rewrite (bool_decide_false (r_type r ∈ SUNDAY_ONLY_TYPES)); [reflexivity|].
  intros Hin. apply list_elem_of_singleton in Hin. contradiction.
Qed.

Lemma typed_reading_witness :
  py "## ["
    ++ heading [] ∅ []
         {| r_index := 2; r_ref := py "Hebrews 7:26-8:2";
            r_type := py "Epistle"; r_occasion := []; r_text := [] |}
    ++ py "]("
    ++ reading_url {| year := 2026; month := 11; day := 4 |}
         {| r_index := 2; r_ref := py "Hebrews 7:26-8:2";
            r_type := py "Epistle"; r_occasion := []; r_text := [] |}
    ++ py ")"
  ∈ markdown_lines {| year := 2026; month := 11; day := 4 |} [] ∅ []
      [{| r_index := 2; r_ref := py "Hebrews 7:26-8:2";
          r_type := py "Epistle"; r_occasion := []; r_text := [] |}].
Proof.
  apply (typed_reading_listed {| year := 2026; month := 11; day := 4 |}
           [] ∅ []).
  - apply list_elem_of_here.
  - discriminate.
  - vm_compute. discriminate.
Defined.

(** X17: The names of the weekday and of the month are always found: the
    index into [WEEKDAYS] is below 7, and for a month from 1 to 12 the
    index into [MONTHS] is below 12. *)
Theorem calendar_names_in_range today :
  (1 <= month today <= 12)%N ->
  (N.to_nat (weekday today) < length WEEKDAYS)%nat
  /\ (N.to_nat (month today - 1) < length MONTHS)%nat.
Proof.
  intros Hm. unfold weekday.
  pose proof (N.mod_upper_bound (toordinal today + 6) 7) as H.
  change (length WEEKDAYS) with 7%nat. change (length MONTHS) with 12%nat.
  split; lia.
Qed.

Lemma calendar_names_witness :
  (N.to_nat (weekday {| year := 2026; month := 11; day := 4 |})
   < length WEEKDAYS)%nat
  /\ (N.to_nat (month {| year := 2026; month := 11; day := 4 |} - 1)
      < length MONTHS)%nat.
Proof.
  apply (calendar_names_in_range {| year := 2026; month := 11; day := 4 |}).
  cbn [month]. lia.
Defined.

(** ** [_clean_ligatures] *)

Lemma replace_char_clears old new text :
  Forall (fun c => c <> old) new ->
  Forall (fun c => c <> old) (replace_char old new text).
Proof.
  intros Hn. unfold replace_char. induction text as [|c t IH]; [constructor|].
  cbn [flat_map]. apply Forall_app. split; [|exact IH].
  destruct (N.eqb_spec c old); [exact Hn|]. now constructor.
Qed.

Lemma replace_char_keeps_out x old new text :
  Forall (fun c => c <> x) new -> Forall (fun c => c <> x) text ->
  Forall (fun c => c <> x) (replace_char old new text).
Proof.
  intros Hn Ht. unfold replace_char.
  induction Ht as [|c t Hc Ht IH]; [constructor|].
  cbn [flat_map]. apply Forall_app. split; [|exact IH].
  destruct (c =? old); [exact Hn|]. now constructor.
Qed.

Lemma replace_char_id old new text :
  Forall (fun c => c <> old) text -> replace_char old new text = text.
Proof.
  intros Ht. unfold replace_char.
  induction Ht as [|c t Hc Ht IH]; [reflexivity|].
  cbn [flat_map]. rewrite IH.
  destruct (N.eqb_spec c old); [contradiction|reflexivity].
Qed.

Ltac ligature_free :=
  repeat first
    [ apply replace_char_clears; repeat constructor; discriminate
    | apply replace_char_keeps_out; [repeat constructor; discriminate|] ].

Lemma clean_ligatures_free text x :
  x ∈ map fst replacements ->
  Forall (fun c => c <> x) (_clean_ligatures text).
Proof.
  intros Hx. unfold _clean_ligatures, replacements in *.
  cbn [fold_left map fst] in *.
  repeat (apply elem_of_cons in Hx as [-> | Hx]; [ligature_free|]).
  now apply elem_of_nil in Hx.
Qed.

Lemma clean_ligatures_id text :
  (forall x, x ∈ map fst replacements -> Forall (fun c => c <> x) text) ->
  _clean_ligatures text = text.
Proof.
  intros H. unfold _clean_ligatures, replacements. cbn [fold_left].
  rewrite (replace_char_id 230) by (apply H, (bool_decide_unpack _); exact I).
  rewrite (replace_char_id 198) by (apply H, (bool_decide_unpack _); exact I).
  rewrite (replace_char_id 339) by (apply H, (bool_decide_unpack _); exact I).
  rewrite (replace_char_id 338) by (apply H, (bool_decide_unpack _); exact I).
  rewrite (replace_char_id 263) by (apply H, (bool_decide_unpack _); exact I).
  apply replace_char_id, H, (bool_decide_unpack _). exact I.
Qed.

(** X18: After [_clean_ligatures] none of the six replaced characters is left,
    and a second pass changes nothing. *)
Theorem clean_ligatures_clears text :
  (forall x, x ∈ map fst replacements -> x ∉ _clean_ligatures text)
  /\ _clean_ligatures (_clean_ligatures text) = _clean_ligatures text.
Proof.
  assert (H : forall x, x ∈ map fst replacements ->
                Forall (fun c => c <> x) (_clean_ligatures text))
    by (intros x; apply clean_ligatures_free).
  split.
  - intros x Hx Hin. specialize (H x Hx).
    rewrite Forall_forall in H. now apply (H x).
  - now apply clean_ligatures_id.
Qed.

(** X19: A text that holds none of the six characters is returned as it
    is. *)
Theorem clean_ligatures_unchanged text :
  (forall x, x ∈ map fst replacements -> x ∉ text) ->
  _clean_ligatures text = text.
Proof.
  intros H. apply clean_ligatures_id. intros x Hx.
  apply Forall_forall. intros c Hc ->. exact (H _ Hx Hc).
Qed.

Lemma clean_ligatures_witness :
  _clean_ligatures [72; 111; 108; 121] = [72; 111; 108; 121].
Proof.
  apply (clean_ligatures_unchanged [72; 111; 108; 121]).
  intros x Hx Hin. revert Hx. apply (bool_decide_unpack _).
  repeat (apply elem_of_cons in Hin as [-> | Hin]; [exact I|]).
  now apply elem_of_nil in Hin.
Defined.

(** ** [_expand_titles] *)

Lemma sub_copy_one icase r repl prev c t :
  match_at icase r prev (c :: t) = None ->
  sub_from icase r repl 0 prev (c :: t)
  = c :: sub_from icase r repl 0 (Some c) t.
Proof. intros H. cbn [sub_from]. now rewrite H. Qed.

(** Where the pattern matches at no position, nothing is replaced. *)
Lemma sub_from_unmatched icase r repl (P : char -> Prop) s prev :
  (forall prev t, Forall P t -> match_at icase r prev t = None) ->
  Forall P s -> sub_from icase r repl 0 prev s = s.
Proof.
  intros H F. revert prev. induction F as [|c t Hc Ht IH]; intros prev.
  - cbn [sub_from]. now rewrite (H prev []).
  - rewrite sub_copy_one by (apply H; now constructor).
    f_equal. apply IH.
Qed.

Lemma startswith_inv s p : startswith s p = true -> exists rest, s = p ++ rest.
Proof.
  revert s. induction p as [|c p IH]; intros s H; [now exists s|].
  destruct s as [|d s]; [discriminate|]. cbn [startswith] in H.
  apply andb_true_iff in H as [E H]. apply char_eqb_eq in E as ->.
  destruct (IH _ H) as [rest ->]. now exists rest.
Qed.

(** A match of an abbreviation pattern begins with the abbreviation and
    its full stop, written so. *)
Lemma abbreviated_needs_title title prev s :
  startswith s (title ++ py ".") = false ->
  match_at false (abbreviated title) prev s = None.
Proof.
  intros H. unfold match_at, abbreviated. cbn [Seq run].
  destruct (xorb _ _); [|reflexivity].
  destruct (run false (Str title) _ ∅ prev s) as [v|] eqn:E; [|reflexivity].
  exfalso. apply run_Str_inv in E as (u1 & u2 & -> & F & K).
  apply exact_Forall2 in F as ->. cbn [run] in K.
  destruct u2 as [|x u2]; [discriminate|].
  destruct (lit_eq false (L1 ".") x) eqn:L; [|discriminate].
  apply char_eqb_eq in L as ->.
  change (title ++ L1 "." :: u2) with (title ++ py "." ++ u2) in H.
  now rewrite app_assoc, startswith_prefix in H.
Qed.

Lemma no_dot_no_title title s :
  Forall (fun c => c <> L1 ".") s -> startswith s (title ++ py ".") = false.
Proof.
  intros F. destruct (startswith s (title ++ py ".")) eqn:E; [|reflexivity].
  apply startswith_inv in E as [rest ->].
  apply Forall_app in F as [F _]. apply Forall_app in F as [_ F].
  inversion F; subst. contradiction.
Qed.

Lemma abbreviated_unmatched title repl prev s :
  Forall (fun c => c <> L1 ".") s ->
  sub_from false (abbreviated title) repl 0 prev s = s.
Proof.
  apply sub_from_unmatched. intros prev' t Ht.
  now apply abbreviated_needs_title, no_dot_no_title.
Qed.

(** X20: A text without a full stop holds no abbreviated title and is
    returned as it is. *)
Theorem expand_titles_without_full_stop text :
  L1 "." ∉ text -> _expand_titles text = text.
Proof.
  intros H.
  assert (F : Forall (fun c => c <> L1 ".") text).
  { apply Forall_forall. intros c Hc ->. exact (H Hc). }
  unfold _expand_titles. cbv zeta.
  change abbreviated_St with (abbreviated (py "St")).
  change abbreviated_Ven with (abbreviated (py "Ven")).
  unfold re_sub. rewrite (abbreviated_unmatched _ _ _ _ F).
  apply (abbreviated_unmatched _ _ _ _ F).
Qed.

Lemma expand_titles_unchanged_witness :
  _expand_titles (py "Holy Anna the Prophetess") = py "Holy Anna the Prophetess".
Proof.
  apply (expand_titles_without_full_stop (py "Holy Anna the Prophetess")).
  apply (bool_decide_unpack _). vm_compute. exact I.
Defined.

Lemma exact_refl t : Forall2 (fun c x => lit_eq false c x = true) t t.
Proof. induction t; constructor; [apply char_eqb_refl|assumption]. Qed.

(** The match of an abbreviated title at a word boundary. *)
Lemma abbreviated_match t0 t prev x sp rest :
  is_word t0 = true -> word_side prev = false ->
  is_space x = true -> Forall (fun c => is_space c = true) sp ->
  stops CSpace rest ->
  match_at false (abbreviated (t0 :: t)) prev
    ((t0 :: t) ++ L1 "." :: x :: sp ++ rest)
  = Some {| groups := ∅; after := rest |}.
Proof.
  intros Hw Hp Hx Hsp Hst. unfold match_at, abbreviated. cbn [Seq run].
  change (word_side (head ((t0 :: t) ++ L1 "." :: x :: sp ++ rest)))
    with (is_word t0).
  rewrite Hw, Hp. cbn [xorb].
  rewrite run_Str_app by apply exact_refl.
  cbn [run]. change (lit_eq false (L1 ".") (L1 ".")) with true. cbv iota.
  now apply run_plus_greedy.
Qed.

(** Characters other than the first letter of the title are copied. *)
Lemma abbreviated_copy t0 t repl prev u rest :
  Forall (fun c => c <> t0) u ->
  sub_from false (abbreviated (t0 :: t)) repl 0 prev (u ++ rest)
  = u ++ sub_from false (abbreviated (t0 :: t)) repl 0 (last_of prev u) rest.
Proof.
  intros F. revert prev. induction F as [|c u Hc F IH]; intros prev;
    [reflexivity|].
  cbn [app]. rewrite sub_copy_one.
  - rewrite last_of_cons. f_equal. apply IH.
  - apply abbreviated_needs_title. cbn [app startswith].
    destruct (char_eqb t0 c) eqn:E; [|reflexivity].
    apply char_eqb_eq in E. congruence.
Qed.

Lemma space_is_not (c x : char) : is_space c = false -> is_space x = true -> x <> c.
Proof. intros Hc Hx ->. congruence. Qed.

(** X21: ["St. "] becomes ["Saint "] and ["Ven. "] becomes ["Venerable "],
    the white space after the full stop reduced to one blank, in front of
    a text that holds no further full stop. *)
Theorem expand_titles_expands x sp rest :
  is_space x = true -> Forall (fun c => is_space c = true) sp ->
  stops CSpace rest -> L1 "." ∉ rest ->
  _expand_titles (py "St." ++ x :: sp ++ rest) = py "Saint " ++ rest
  /\ _expand_titles (py "Ven." ++ x :: sp ++ rest) = py "Venerable " ++ rest.
Proof.
  intros Hx Hsp Hst Hdot.
  assert (F : Forall (fun c => c <> L1 ".") rest).
  { apply Forall_forall. intros c Hc ->. exact (Hdot Hc). }
  unfold _expand_titles. cbv zeta.
  change abbreviated_St with (abbreviated (py "St")).
  change abbreviated_Ven with (abbreviated (py "Ven")).
  unfold re_sub. split.
  - change (py "St." ++ x :: sp ++ rest) with ((py "St." ++ x :: sp) ++ rest).
    rewrite (sub_from_match_app false (abbreviated (py "St")) (py "Saint ")
               None (py "St." ++ x :: sp) rest
               {| groups := ∅; after := rest |});
      [|discriminate| |reflexivity].
    + rewrite (abbreviated_unmatched _ _ _ rest F).
      apply abbreviated_unmatched. apply Forall_app. split; [|exact F].
      repeat constructor; discriminate.
    + now apply (abbreviated_match (L1 "S") (py "t") None x sp rest).
  - assert (Hs : Forall (fun c => c <> L1 "S") (py "Ven." ++ x :: sp)).
    { apply Forall_app. split; [repeat constructor; discriminate|].
      constructor; [now apply space_is_not|].
      eapply Forall_impl; [exact Hsp|]. intros c. now apply space_is_not. }
    change (py "Ven." ++ x :: sp ++ rest) with ((py "Ven." ++ x :: sp) ++ rest).
    rewrite (abbreviated_copy (L1 "S") (py "t") _ None _ rest Hs).
    rewrite (abbreviated_unmatched _ _ _ rest F).
    rewrite (sub_from_match_app false (abbreviated (py "Ven"))
               (py "Venerable ") None (py "Ven." ++ x :: sp) rest
               {| groups := ∅; after := rest |});
      [|discriminate| |reflexivity].
    + now rewrite (abbreviated_unmatched _ _ _ rest F).
    + now apply (abbreviated_match (L1 "V") (py "en") None x sp rest).
Qed.

Lemma expand_titles_witness :
  _expand_titles (py "St." ++ L1 " " :: [] ++ py "Herman of Alaska")
  = py "Saint " ++ py "Herman of Alaska".
Proof.
  refine (proj1 (expand_titles_expands (L1 " ") [] (py "Herman of Alaska")
                   _ _ _ _)).
  - reflexivity.
  - constructor.
  - reflexivity.
  - apply (bool_decide_unpack _). vm_compute. exact I.
Defined.

(** ** [build_occasion] with an orthocal description *)

(** X10: With an empty or generic abbreviation, an orthocal description that
    is not empty always gives a result that is not empty; when it is no
    weekday ordinal and no commemoration contains its key as a whole
    word, the result is the description itself. *)
Theorem orthocal_description_kept a ref comms idx titles :
  generic (cleaned a) -> orthocal_description ref idx <> [] ->
  build_occasion a ref comms idx titles <> []
  /\ (starts_with_digit (orthocal_description ref idx) = false ->
      Forall (fun e => ~ contains_word
                         (key_of (orthocal_description ref idx)) e) comms ->
      build_occasion a ref comms idx titles = orthocal_description ref idx).
Proof.
  intros Hg Hd. rewrite build_occasion_steps.
  rewrite (generic_no_digit _ Hg), andb_false_r.
  rewrite (bool_decide_true _ Hg). cbn [negb]. rewrite andb_false_r.
  rewrite (proj2 (truthy_true _) Hd). split.
  - destruct (starts_with_digit _); [discriminate|]. unfold expand.
    destruct (_search_commemorations _ comms) as [m|]; [|exact Hd].
    destruct (truthy m) eqn:E; [|exact Hd].
    apply article_nonempty. now apply truthy_true.
  - intros -> Hno. unfold expand.
    now rewrite (proj2 (search_commemorations_none _ _) (or_intror Hno)).
Qed.

Lemma orthocal_description_kept_witness :
  build_occasion (py "Saint") (py "Luke 1:1") [py "Holy Anna the Prophetess"]
    {[ py "luke11" := {[ py "description" := py "St. Innocent" ]} ]} []
  = orthocal_description (py "Luke 1:1")
      {[ py "luke11" := {[ py "description" := py "St. Innocent" ]} ]}.
Proof.
  assert (E : orthocal_description (py "Luke 1:1")
                {[ py "luke11" := {[ py "description" := py "St. Innocent" ]} ]}
              = py "St. Innocent").
  { rewrite (orthocal_description_found (py "Luke 1:1") _
               {[ py "description" := py "St. Innocent" ]}
               (py "St. Innocent")).
    - vm_compute. reflexivity.
    - discriminate.
    - replace (_norm (py "Luke 1:1")) with (py "luke11")
        by (vm_compute; reflexivity).
      apply lookup_singleton_eq.
    - apply lookup_singleton_eq. }
  refine (proj2 (orthocal_description_kept (py "Saint") (py "Luke 1:1")
                   [py "Holy Anna the Prophetess"]
                   {[ py "luke11" :=
                        {[ py "description" := py "St. Innocent" ]} ]} []
                   _ _) _ _).
  - apply (bool_decide_unpack _). vm_compute. exact I.
  - rewrite E. discriminate.
  - rewrite E. vm_compute. reflexivity.
  - rewrite E. constructor; [|constructor].
    apply not_matched_word. vm_compute. reflexivity.
Defined.
